(** * Filters: cost model, sibling ordering and evaluation

    A shallow embedding of [core/src/scene/filters.cpp]: the filter tree
    ([Filter::Data]), [Filter::filterCost], [Filter::key],
    [Filter::operands], [Filter::isOperator], [compareSetFilter],
    [Filter::sort] and the [matcher] visitor behind [Filter::eval].

    Conventions of the embedding:
    - C++ [int] is a [Z] kept in the 32-bit two's complement range by
      [int_wrap]; arithmetic on [int] is written with its wrap-around;
    - C++ [double] is the kernel's binary64 [float] ([PrimFloat]);
    - [std::string] is [string], [std::vector<T>] is [list T];
    - code that can abort or leave defined behaviour ([assert], indexing
      past the end of a vector, a [get<T>] on the wrong alternative, a
      floating value that does not fit the [int] it is converted to)
      returns in the [result] monad. *)

From Stdlib Require Import ZArith Ascii String List Floats Lia Permutation Sorted Bool.
From stdpp Require Import gmap strings.
Import ListNotations.

Local Open Scope Z_scope.

(* ================================================================= *)
(** ** Outcomes of partial operations *)

Inductive error : Type :=
| AssertionFailed      (* [assert(false)] reached with assertions enabled *)
| IndexOutOfRange      (* [v[i]] with [i >= v.size()] *)
| BadVariantAccess     (* [data.get<T>()] on another alternative *)
| FloatToIntOverflow   (* a [double] converted to an [int] it does not fit *)
| DanglingReference.   (* a reference to no live object *)

Inductive result (A : Type) : Type :=
| Ok (a : A)
| Err (e : error).

Arguments Ok {A} a.
Arguments Err {A} e.

Definition bind {A B : Type} (m : result A) (k : A -> result B) : result B :=
  match m with
  | Ok a => k a
  | Err e => Err e
  end.

Declare Scope result_scope.
Delimit Scope result_scope with result.
Notation "'let!' x ':=' m 'in' k" := (bind m (fun x => k))
  (at level 10, x name, m at level 200, k at level 200) : result_scope.
Local Open Scope result_scope.

Definition is_ok {A : Type} (m : result A) : bool :=
  match m with
  | Ok _ => true
  | Err _ => false
  end.

(* ================================================================= *)
(** ** Machine integers and doubles *)

Definition INT_MIN : Z := - 2 ^ 31.
Definition INT_MAX : Z := 2 ^ 31 - 1.

(** The value an [int] computation keeps of a mathematical integer. *)
Definition int_wrap (z : Z) : Z := (z + 2 ^ 31) mod 2 ^ 32 - 2 ^ 31.

Definition int_add (a b : Z) : Z := int_wrap (a + b).
Definition int_sub (a b : Z) : Z := int_wrap (a - b).

Definition in_int_range (z : Z) : Prop := INT_MIN <= z <= INT_MAX.

Abbreviation double := PrimFloat.float.

(** [std::numeric_limits<double>::epsilon()], that is 2^-52. *)
Definition DBL_EPSILON : double := 0x1p-52%float.

(** [std::isinf]. *)
Definition isinf (x : double) : bool := PrimFloat.is_infinity x.

(** [std::fabs]. *)
Definition fabs (x : double) : double := PrimFloat.abs x.

(** The integral part of a finite double (rounding toward zero), as the
    floating-integral conversion takes it. *)
Definition double_trunc (x : double) : option Z :=
  match Prim2SF x with
  | S754_zero _ => Some 0
  | S754_finite s m e =>
      let a := Z.shiftl (Z.pos m) e in
      Some (if s then - a else a)
  | S754_infinity _ => None
  | S754_nan => None
  end.

(** Conversion of a [double] to [int]: the truncated value when [int]
    can hold it; otherwise the behaviour is undefined. *)
Definition double_to_int (x : double) : result Z :=
  match double_trunc x with
  | Some z => if (INT_MIN <=? z) && (z <=? INT_MAX) then Ok z
              else Err FloatToIntOverflow
  | None => Err FloatToIntOverflow
  end.

(* ================================================================= *)
(** ** Data model *)

(** [Value = variant<none_type, double, std::string>]. *)
Inductive Value : Type :=
| Value_none
| Value_double (num : double)
| Value_string (str : string).

(** Modelled from the spec: the enumeration [FilterGlobal] is declared in
    the header; the code only names [FilterGlobal::undefined], the spec
    gives the zoom level and the geometry kind as the other references. *)
Inductive FilterGlobal : Type :=
| undefined
| zoom
| geometry.

Definition FilterGlobal_eqb (a b : FilterGlobal) : bool :=
  match a, b with
  | undefined, undefined | zoom, zoom | geometry, geometry => true
  | _, _ => false
  end.

(** [Filter::Data], the variant over the filter structs.  The field types
    follow the spec's data model ([min], [max] are float64). *)
#[warnings="-register-all"]
Inductive Filter : Type :=
| Filter_none
| OperatorAll (operands : list Filter)
| OperatorNone (operands : list Filter)
| OperatorAny (operands : list Filter)
| EqualitySet (key : string) (values : list Value) (global : FilterGlobal)
| Equality (key : string) (value : Value) (global : FilterGlobal)
| Range (key : string) (min max : double) (global : FilterGlobal)
| Existence (key : string) (exists_ : bool)
| Function (id : N).

(** Induction over the tree, with the hypothesis available for every
    operand of an operator. *)
Section FilterInduction.
Variable P : Filter -> Prop.
Hypothesis H_none : P Filter_none.
Hypothesis H_all : forall ops, Forall P ops -> P (OperatorAll ops).
Hypothesis H_nonef : forall ops, Forall P ops -> P (OperatorNone ops).
Hypothesis H_any : forall ops, Forall P ops -> P (OperatorAny ops).
Hypothesis H_set : forall k vs g, P (EqualitySet k vs g).
Hypothesis H_eq : forall k v g, P (Equality k v g).
Hypothesis H_range : forall k lo hi g, P (Range k lo hi g).
Hypothesis H_exist : forall k e, P (Existence k e).
Hypothesis H_fun : forall id, P (Function id).

Fixpoint Filter_tree_ind (f : Filter) : P f :=
  let fix all_ops (l : list Filter) : Forall P l :=
    match l with
    | [] => List.Forall_nil P
    | x :: r => @List.Forall_cons _ P x r (Filter_tree_ind x) (all_ops r)
    end in
  match f with
  | Filter_none => H_none
  | OperatorAll ops => H_all ops (all_ops ops)
  | OperatorNone ops => H_nonef ops (all_ops ops)
  | OperatorAny ops => H_any ops (all_ops ops)
  | EqualitySet k vs g => H_set k vs g
  | Equality k v g => H_eq k v g
  | Range k lo hi g => H_range k lo hi g
  | Existence k e => H_exist k e
  | Function id => H_fun id
  end.
End FilterInduction.

(* ================================================================= *)
(** ** Introspection: [key], [operands], [isOperator] *)

Definition key (f : Filter) : string :=
  match f with
  | Existence k _ => k
  | EqualitySet k _ _ => k
  | Equality k _ _ => k
  | Range k _ _ _ => k
  | _ => EmptyString
  end.

Definition operands (f : Filter) : list Filter :=
  match f with
  | OperatorAny ops => ops
  | OperatorAll ops => ops
  | OperatorNone ops => ops
  | _ => []
  end.

Definition isOperator (f : Filter) : bool :=
  match f with
  | OperatorAny _ => true
  | OperatorAll _ => true
  | OperatorNone _ => true
  | _ => false
  end.

(* ================================================================= *)
(** ** Cost estimator: [Filter::filterCost] *)

Section Cost.
(** [NDEBUG]: whether the build disables [assert]. *)
Variable NDEBUG : bool.

(** [for (auto& f : operands()) { sum += f.filterCost(); }] *)
Definition sum_costs (cost : Filter -> result Z) : list Filter -> Z -> result Z :=
  fix loop (l : list Filter) (sum : Z) : result Z :=
    match l with
    | [] => Ok sum
    | f :: rest => let! c := cost f in loop rest (int_add sum c)
    end.

Fixpoint filterCost (f : Filter) : result Z :=
  match f with
  | OperatorAny ops => sum_costs filterCost ops 100
  | OperatorAll ops => sum_costs filterCost ops 100
  | OperatorNone ops => sum_costs filterCost ops 100
  | Existence _ _ => Ok 20
  | EqualitySet _ _ g => Ok (if FilterGlobal_eqb g undefined then 10 else 1)
  | Equality _ _ g => Ok (if FilterGlobal_eqb g undefined then 10 else 1)
  | Range _ _ _ g => Ok (if FilterGlobal_eqb g undefined then 10 else 1)
  | Function _ => Ok 1000
  | Filter_none => if NDEBUG then Ok 0 else Err AssertionFailed
  end.
End Cost.

(* ================================================================= *)
(** ** Sibling sorter: [compareSetFilter] and [Filter::sort] *)

(** [v[i]] on a [std::vector]: defined only below [v.size()]. *)
Definition vector_at {A : Type} (v : list A) (i : nat) : result A :=
  match v !! i with
  | Some x => Ok x
  | None => Err IndexOutOfRange
  end.

(** [data.is<Filter::Range>()]. *)
Definition is_Range (f : Filter) : bool :=
  match f with
  | Range _ _ _ _ => true
  | _ => false
  end.

(** [data.get<Filter::Range>()], reduced to the two bounds the caller reads. *)
Definition get_Range (f : Filter) : result (double * double) :=
  match f with
  | Range _ lo hi _ => Ok (lo, hi)
  | _ => Err BadVariantAccess
  end.

(** [std::string]'s [operator>]: bytewise lexicographic comparison, a
    proper prefix being smaller. *)
Definition string_gt (a b : string) : bool :=
  match String.compare a b with
  | Gt => true
  | _ => false
  end.

(** [int compareSetFilter(const Filter& a, const Filter& b)].  The
    [bool] of the size comparison and the [double] difference of the two
    lower bounds are both converted to the [int] return type. *)
Definition compareSetFilter (a b : Filter) : result Z :=
  let oa := operands a in
  let ob := operands b in
  if negb (length oa =? length ob)%nat
  then Ok (Z.b2z (length oa <? length ob)%nat)
  else
    let! oa0 := vector_at oa 0 in
    if is_Range oa0 then
      let! ob0 := vector_at ob 0 in
      if is_Range ob0 && String.eqb (key oa0) (key ob0) then
        let! ra := get_Range oa0 in
        let! rb := get_Range ob0 in
        if isinf (snd ra) && isinf (snd rb)
        then double_to_int (PrimFloat.sub (fst rb) (fst ra))
        else Ok 0
      else Ok 0
    else Ok 0.

Section Sort.
Variable NDEBUG : bool.

(** The lambda handed to [std::sort]: [true] when [a] must precede [b]. *)
Definition sort_less (a b : Filter) : result bool :=
  let! ma := filterCost NDEBUG a in
  let! mb := filterCost NDEBUG b in
  if negb (isOperator a) && negb (isOperator b) then
    let diff := int_sub ma mb in
    if negb (diff =? 0) then Ok (diff <? 0)
    else Ok (string_gt (key a) (key b))
  else if negb (ma =? mb) then Ok (ma <? mb)
  else
    let! c := compareSetFilter a b in
    Ok (c <? 0).

End Sort.

(** *** [std::sort]

    The library routine is not part of the repository.  It is modelled
    by the insertion sort that libstdc++'s [std::sort] runs on a range of
    at most sixteen elements: every further element is moved to the front
    when it compares less than the first one, and otherwise shifted left
    past the elements it compares less than.  That second loop is
    unguarded: it has no bound check and relies on the first element to
    stop it.  The comparator can fail, so the routine runs in [result]. *)
Section StdSort.
Context {A : Type}.
Variable comp : A -> A -> result bool.

(** [__unguarded_linear_insert]: [rprefix] is the sorted prefix, last
    element first. *)
Fixpoint unguarded_linear_insert (val : A) (rprefix : list A) : result (list A) :=
  match rprefix with
  | [] => Err IndexOutOfRange
  | next :: before =>
      let! c := comp val next in
      if c then
        let! r := unguarded_linear_insert val before in
        Ok (next :: r)
      else Ok (val :: rprefix)
  end.

(** One round of [__insertion_sort]: [val] joins the sorted [prefix]. *)
Definition insertion_step (prefix : list A) (val : A) : result (list A) :=
  match prefix with
  | [] => Ok [val]
  | first :: _ =>
      let! c := comp val first in
      if c then Ok (val :: prefix)
      else
        let! r := unguarded_linear_insert val (rev prefix) in
        Ok (rev r)
  end.

Fixpoint insertion_sort_from (prefix rest : list A) : result (list A) :=
  match rest with
  | [] => Ok prefix
  | val :: rest' =>
      let! prefix' := insertion_step prefix val in
      insertion_sort_from prefix' rest'
  end.

Definition std_sort (v : list A) : result (list A) :=
  match v with
  | [] => Ok []
  | first :: rest => insertion_sort_from [first] rest
  end.

End StdSort.

(** [std::vector<Filter> Filter::sort(const std::vector<Filter>& _filters)]:
    the value returned for the sequence [_filters]. *)
Definition sort (NDEBUG : bool) (_filters : list Filter) : result (list Filter) :=
  let filters := _filters in
  std_sort (sort_less NDEBUG) filters.

(** The same call seen on a store of vectors: the argument is a
    reference to a vector of the caller, the local [filters] is a copy in
    a cell of its own, sorted in place and handed back. *)
Definition sort_call (NDEBUG : bool) (h : gmap positive (list Filter))
  (_filters : positive) : result (gmap positive (list Filter) * positive) :=
  match h !! _filters with
  | None => Err DanglingReference
  | Some v =>
      let filters := fresh (dom h) in
      let h1 := <[filters := v]> h in
      let! sorted := std_sort (sort_less NDEBUG) v in
      Ok (<[filters := sorted]> h1, filters)
  end.

(* ================================================================= *)
(** ** Value matchers *)

(** [string_matcher{str}] applied to a value. *)
Definition string_matcher (str : string) (v : Value) : bool :=
  match v with
  | Value_string v' => String.eqb str v'
  | _ => false
  end.

(** [number_matcher{num}] applied to a value. *)
Definition number_matcher (num : double) (v : Value) : bool :=
  match v with
  | Value_double v' =>
      if PrimFloat.eqb num v' then true
      else PrimFloat.leb (fabs (PrimFloat.sub num v')) DBL_EPSILON
  | _ => false
  end.

(** [for (const auto& v : values) { if (Value::visit(v, m)) return true; }
    return false;] *)
Fixpoint any_value (m : Value -> bool) (values : list Value) : bool :=
  match values with
  | [] => false
  | v :: rest => if m v then true else any_value m rest
  end.

(** [match_equal_set{values}] applied to the resolved value. *)
Definition match_equal_set (values : list Value) (x : Value) : bool :=
  match x with
  | Value_double num => any_value (number_matcher num) values
  | Value_string str => any_value (string_matcher str) values
  | Value_none => false
  end.

(** [match_equal{value}] applied to the resolved value. *)
Definition match_equal (value : Value) (x : Value) : bool :=
  match x with
  | Value_double num => number_matcher num value
  | Value_string str => string_matcher str value
  | Value_none => false
  end.

(** [match_range{f}] applied to the resolved value. *)
Definition match_range (lo hi : double) (x : Value) : bool :=
  match x with
  | Value_double num => PrimFloat.leb lo num && PrimFloat.ltb num hi
  | Value_string _ => false
  | Value_none => false
  end.

(* ================================================================= *)
(** ** The external collaborators of the matcher *)

(** Modelled from the spec: the property store of a record ([Properties],
    declared in [data/tileData.h]) is a keyed store whose [get] yields the
    absent sentinel for a missing key and whose [contains] tells whether
    the key is present. *)
Definition props_get (props : gmap string Value) (k : string) : Value :=
  default Value_none (props !! k).

Definition props_contains (props : gmap string Value) (k : string) : bool :=
  bool_decide (is_Some (props !! k)).

(** Modelled from the spec: the context accessor ([StyleContext], declared
    in [scene/styleContext.h]) supplies the value of a global reference and
    the opaque boolean result of an external predicate. *)
Record StyleContext : Type := {
  getGlobal : FilterGlobal -> Value;
  evalFilter : N -> bool
}.

(* ================================================================= *)
(** ** Matcher / evaluator: [struct matcher] and [Filter::eval] *)

Section Matcher.
Variable props : gmap string Value.
Variable ctx : StyleContext.

(** [(f.global == FilterGlobal::undefined) ? props.get(f.key)
                                           : ctx.getGlobal(f.global)] *)
Definition resolve (k : string) (g : FilterGlobal) : Value :=
  if FilterGlobal_eqb g undefined then props_get props k else getGlobal ctx g.

(** The loop of [operator()(const Filter::OperatorAny&)]. *)
Definition any_operand (ev : Filter -> bool) : list Filter -> bool :=
  fix loop (l : list Filter) : bool :=
    match l with
    | [] => false
    | filt :: rest => if ev filt then true else loop rest
    end.

(** The loop of [operator()(const Filter::OperatorAll&)]. *)
Definition all_operands (ev : Filter -> bool) : list Filter -> bool :=
  fix loop (l : list Filter) : bool :=
    match l with
    | [] => true
    | filt :: rest => if negb (ev filt) then false else loop rest
    end.

(** The loop of [operator()(const Filter::OperatorNone&)]. *)
Definition no_operand (ev : Filter -> bool) : list Filter -> bool :=
  fix loop (l : list Filter) : bool :=
    match l with
    | [] => true
    | filt :: rest => if ev filt then false else loop rest
    end.

Fixpoint eval (f : Filter) : bool :=
  match f with
  | OperatorAny ops => any_operand eval ops
  | OperatorAll ops => all_operands eval ops
  | OperatorNone ops => no_operand eval ops
  | Existence k e => Bool.eqb e (props_contains props k)
  | EqualitySet k vs g => match_equal_set vs (resolve k g)
  | Equality k v g => match_equal v (resolve k g)
  | Range k lo hi g => match_range lo hi (resolve k g)
  | Function id => evalFilter ctx id
  | Filter_none => true
  end.

End Matcher.

(* ================================================================= *)
(** ** Debug dump: [Filter::print] *)

(** [logMsg] belongs to the platform layer.  A call is recorded as the
    format string with the arguments handed to it, in order; the dump of a
    filter is the sequence of the calls it makes. *)
Inductive log_arg : Type :=
| arg_int (z : Z)
| arg_str (s : string)
| arg_double (d : double).

Record log_msg : Type := {
  log_format : string;
  log_args : list log_arg
}.

(** The line feed that ends every format string. *)
Definition LF : string := String "010"%char EmptyString.

(** [f.global != FilterGlobal::undefined], passed for a [%d]. *)
Definition global_flag (g : FilterGlobal) : Z :=
  Z.b2z (negb (FilterGlobal_eqb g undefined)).

(** The two messages that show the value of an [EqualitySet] or an
    [Equality]: one [if] for a string, one for a number, none for the
    absent value.  [set_label] is the text of the string case, which
    differs between the two filters. *)
Definition print_value (set_label : string) (_indent : Z) (g : FilterGlobal)
  (k : string) (v : Value) : list log_msg :=
  (match v with
   | Value_string str =>
       [ {| log_format := set_label;
            log_args := [arg_int _indent; arg_str ""; arg_int (global_flag g);
                         arg_str k; arg_str str] |} ]
   | _ => []
   end) ++
  (match v with
   | Value_double num =>
       [ {| log_format := "%*s equality - global:%d key:%s val:%f" ++ LF;
            log_args := [arg_int _indent; arg_str ""; arg_int (global_flag g);
                         arg_str k; arg_double num] |} ]
   | _ => []
   end).

(** [for (const auto& filt : operands) { filt.print(_indent + 2); }] *)
Definition print_operands (pr : Filter -> Z -> result (list log_msg))
  (_indent : Z) : list Filter -> result (list log_msg) :=
  fix loop (l : list Filter) : result (list log_msg) :=
    match l with
    | [] => Ok []
    | filt :: rest =>
        let! out := pr filt (int_add _indent 2) in
        let! outs := loop rest in
        Ok (out ++ outs)
    end.

(** [void Filter::print(int _indent) const]: the messages logged. *)
Fixpoint print (f : Filter) (_indent : Z) : result (list log_msg) :=
  match f with
  | OperatorAny ops =>
      let! outs := print_operands print _indent ops in
      Ok ({| log_format := "%*s any" ++ LF;
             log_args := [arg_int _indent; arg_str ""] |} :: outs)
  | OperatorAll ops =>
      let! outs := print_operands print _indent ops in
      Ok ({| log_format := "%*s all" ++ LF;
             log_args := [arg_int _indent; arg_str ""] |} :: outs)
  | OperatorNone ops =>
      let! outs := print_operands print _indent ops in
      Ok ({| log_format := "%*s none" ++ LF;
             log_args := [arg_int _indent; arg_str ""] |} :: outs)
  | Existence k _ =>
      Ok [ {| log_format := "%*s existence - key:%s" ++ LF;
              log_args := [arg_int _indent; arg_str ""; arg_str k] |} ]
  | EqualitySet k vs g =>
      let! v0 := vector_at vs 0 in
      Ok (print_value ("%*s equality set - global:%d key:%s val:%s" ++ LF)
            _indent g k v0)
  | Equality k v g =>
      Ok (print_value ("%*s equality - global:%d key:%s val:%s" ++ LF)
            _indent g k v)
  | Range k lo hi g =>
      Ok [ {| log_format := "%*s range - global:%d key:%s min:%f max:%f" ++ LF;
              log_args := [arg_int _indent; arg_str ""; arg_int (global_flag g);
                           arg_str k; arg_double lo; arg_double hi] |} ]
  | Function _ =>
      Ok [ {| log_format := "%*s function" ++ LF;
              log_args := [arg_int _indent; arg_str ""] |} ]
  | Filter_none => Ok []
  end.

(* ================================================================= *)
(** ** Vocabulary of the statements *)

(** The mathematical sum of a list of costs. *)
Definition sum_list (cs : list Z) : Z := fold_right Z.add 0 cs.

(** A filter tree without the [none_type] alternative anywhere. *)
Fixpoint none_free (f : Filter) : bool :=
  match f with
  | Filter_none => false
  | OperatorAny ops => forallb none_free ops
  | OperatorAll ops => forallb none_free ops
  | OperatorNone ops => forallb none_free ops
  | _ => true
  end.

(** The per-type equality rule of the spec, between a resolved value [x]
    and a value [v] a filter asks for: strings are equal when they are the
    same text; numbers when [==] holds or their absolute difference is at
    most the machine epsilon; values of different types, and the absent
    sentinel, are never equal. *)
Definition values_equal (x v : Value) : Prop :=
  match x, v with
  | Value_string s, Value_string t => s = t
  | Value_double b, Value_double a =>
      PrimFloat.eqb b a = true \/
      PrimFloat.leb (fabs (PrimFloat.sub b a)) DBL_EPSILON = true
  | _, _ => False
  end.

(** The comparator returns whenever it is called on a sibling and a
    sibling placed before it in the sequence: these are the only calls the
    insertion sort makes (an element is compared with elements already
    placed, never with itself). *)
Definition returns_on_earlier (comp : Filter -> Filter -> result bool)
  (fs : list Filter) : Prop :=
  StronglySorted (fun earlier later => exists r, comp later earlier = Ok r) fs.

(** Two cost-tied operator siblings with one and with two operands. *)
Definition one_operand : Filter :=
  OperatorAll [Existence "kind" true].

Definition two_operands : Filter :=
  OperatorAll [Equality "kind" (Value_string "park") undefined;
               Equality "name" (Value_string "x") undefined].

(** Two cost-tied operator siblings, each wrapping one [Range] on the same
    key with an infinite upper bound; the lower bounds are 0.5 and 0. *)
Definition range_from_half : Filter :=
  OperatorAll [Range "height" 0.5 infinity undefined].

Definition range_from_zero : Filter :=
  OperatorAll [Range "height" 0 infinity undefined].


(** The cost table of the spec, read on the whole tree as a mathematical
    integer ([none_type] has no entry; it is given the 0 of a build without
    assertions). *)
Fixpoint cost (f : Filter) : Z :=
  match f with
  | OperatorAny ops => 100 + fold_right (fun x acc => cost x + acc) 0 ops
  | OperatorAll ops => 100 + fold_right (fun x acc => cost x + acc) 0 ops
  | OperatorNone ops => 100 + fold_right (fun x acc => cost x + acc) 0 ops
  | Existence _ _ => 20
  | EqualitySet _ _ g => match g with undefined => 10 | _ => 1 end
  | Equality _ _ g => match g with undefined => 10 | _ => 1 end
  | Range _ _ _ g => match g with undefined => 10 | _ => 1 end
  | Function _ => 1000
  | Filter_none => 0
  end.

(** The order the spec gives two simple filters: by cost ascending, and
    on equal costs by key descending. *)
Definition simple_before (a b : Filter) : bool :=
  if cost a =? cost b then string_gt (key a) (key b) else cost a <? cost b.

(** A simple filter the cost estimator accepts. *)
Definition simple_filter (NDEBUG : bool) (f : Filter) : bool :=
  negb (isOperator f) && (NDEBUG || none_free f).

(** A sequence in which no later element is less than an earlier one. *)
Definition ascending {A : Type} (lt : A -> A -> bool) (l : list A) : Prop :=
  StronglySorted (fun x y => lt y x = false) l.

(** The same, for a sequence held last element first. *)
Definition descending {A : Type} (lt : A -> A -> bool) (l : list A) : Prop :=
  StronglySorted (fun x y => lt x y = false) l.

(** The keys a filter can ask the property store for: the key of every
    [Existence], and of every [EqualitySet], [Equality] and [Range] without
    a global reference. *)
Fixpoint keys_read (f : Filter) : list string :=
  match f with
  | OperatorAny ops => flat_map keys_read ops
  | OperatorAll ops => flat_map keys_read ops
  | OperatorNone ops => flat_map keys_read ops
  | Existence k _ => [k]
  | EqualitySet k _ g => if FilterGlobal_eqb g undefined then [k] else []
  | Equality k _ g => if FilterGlobal_eqb g undefined then [k] else []
  | Range k _ _ g => if FilterGlobal_eqb g undefined then [k] else []
  | Function _ => []
  | Filter_none => []
  end.

(** The global references a filter can ask the context for. *)
Fixpoint globals_read (f : Filter) : list FilterGlobal :=
  match f with
  | OperatorAny ops => flat_map globals_read ops
  | OperatorAll ops => flat_map globals_read ops
  | OperatorNone ops => flat_map globals_read ops
  | EqualitySet _ _ g => if FilterGlobal_eqb g undefined then [] else [g]
  | Equality _ _ g => if FilterGlobal_eqb g undefined then [] else [g]
  | Range _ _ _ g => if FilterGlobal_eqb g undefined then [] else [g]
  | _ => []
  end.

(** The external predicates a filter can call. *)
Fixpoint functions_called (f : Filter) : list N :=
  match f with
  | OperatorAny ops => flat_map functions_called ops
  | OperatorAll ops => flat_map functions_called ops
  | OperatorNone ops => flat_map functions_called ops
  | Function id => [id]
  | _ => []
  end.

(** Some [EqualitySet] of the tree has no value. *)
Fixpoint has_empty_set (f : Filter) : bool :=
  match f with
  | OperatorAny ops => existsb has_empty_set ops
  | OperatorAll ops => existsb has_empty_set ops
  | OperatorNone ops => existsb has_empty_set ops
  | EqualitySet _ [] _ => true
  | _ => false
  end.

(** The messages a value gives rise to in the dump, by nesting level:
    one for a string or a number, none for the absent value. *)
Definition value_lines (v : Value) : list nat :=
  match v with
  | Value_none => []
  | _ => [0%nat]
  end.

(** The nesting levels of the nodes of a filter that the dump describes,
    in the order of the tree (a node before its operands, operands left to
    right): 0 for the filter itself, one more for each operator above a
    node. *)
Fixpoint nesting_levels (f : Filter) : list nat :=
  match f with
  | OperatorAny ops => 0%nat :: map S (flat_map nesting_levels ops)
  | OperatorAll ops => 0%nat :: map S (flat_map nesting_levels ops)
  | OperatorNone ops => 0%nat :: map S (flat_map nesting_levels ops)
  | Existence _ _ => [0%nat]
  | EqualitySet _ vs _ => match vs with v :: _ => value_lines v | [] => [] end
  | Equality _ v _ => value_lines v
  | Range _ _ _ _ => [0%nat]
  | Function _ => [0%nat]
  | Filter_none => []
  end.

(** The width of the leading blank field at a nesting level: the
    indentation of the call plus two per level, as an [int]. *)
Definition width_at (_indent : Z) (level : nat) : option Z :=
  Some (int_wrap (_indent + 2 * Z.of_nat level)).

(** The field width a message passes for its leading [%*s]. *)
Definition msg_width (m : log_msg) : option Z :=
  match log_args m with
  | arg_int w :: _ => Some w
  | _ => None
  end.

(** The sequence holds no element that the comparator puts before an
    earlier one. *)
Definition in_order (comp : Filter -> Filter -> result bool) (fs : list Filter) : Prop :=
  StronglySorted (fun x y => comp y x = Ok false) fs.

(** A filter that tests one named value: [Existence], [EqualitySet],
    [Equality] or [Range]. *)
Definition keyed_filter (f : Filter) : bool :=
  match f with
  | Existence _ _ => true
  | EqualitySet _ _ _ => true
  | Equality _ _ _ => true
  | Range _ _ _ _ => true
  | _ => false
  end.

(* ================================================================= *)
(** * Properties *)

(** ** Machine arithmetic *)

Lemma int_wrap_in_range (z : Z) : in_int_range (int_wrap z).
Proof.
  unfold in_int_range, int_wrap, INT_MIN, INT_MAX.
  pose proof (Z.mod_pos_bound (z + 2 ^ 31) (2 ^ 32)) as Hb. lia.
Qed.

Lemma int_wrap_id (z : Z) : in_int_range z -> int_wrap z = z.
Proof.
  unfold in_int_range, int_wrap, INT_MIN, INT_MAX. intros Hz.
  rewrite Z.mod_small; lia.
Qed.

Lemma int_wrap_add_l (a b : Z) : int_wrap (int_wrap a + b) = int_wrap (a + b).
Proof.
  unfold int_wrap.
  replace ((a + 2 ^ 31) mod 2 ^ 32 - 2 ^ 31 + b + 2 ^ 31)
    with ((a + 2 ^ 31) mod 2 ^ 32 + b) by lia.
  rewrite Zplus_mod_idemp_l. f_equal. f_equal. lia.
Qed.

(** ** Cost estimator *)

Section CostFacts.
Variable NDEBUG : bool.

Lemma sum_costs_total (ops : list Filter) (cs : list Z) :
  Forall2 (fun f c => filterCost NDEBUG f = Ok c) ops cs ->
  forall sum, in_int_range sum ->
  sum_costs (filterCost NDEBUG) ops sum = Ok (int_wrap (sum + sum_list cs)).
Proof.
  induction 1 as [| f c ops cs Hf _ IH]; intros sum Hsum; simpl.
  - rewrite Z.add_0_r, int_wrap_id; auto.
  - rewrite Hf. simpl. rewrite IH by apply int_wrap_in_range.
    unfold int_add. rewrite int_wrap_add_l. f_equal. f_equal. lia.
Qed.

Lemma hundred_in_range : in_int_range 100.
Proof. unfold in_int_range, INT_MIN, INT_MAX. lia. Qed.

End CostFacts.

Lemma sum_costs_defined (ops : list Filter) :
  Forall (fun f => none_free f = true -> exists c, filterCost false f = Ok c) ops ->
  forallb none_free ops = true ->
  forall sum, exists c, sum_costs (filterCost false) ops sum = Ok c.
Proof.
  induction 1 as [| f ops Hf _ IH]; intros Hall sum; simpl in *.
  - eauto.
  - apply andb_true_iff in Hall as [Hnf Hrest].
    destruct (Hf Hnf) as [c ->]. simpl. apply IH, Hrest.
Qed.

Lemma sum_costs_asserts (ops : list Filter) :
  Forall (fun f =>
            (none_free f = true -> exists c, filterCost false f = Ok c) /\
            (none_free f = false -> filterCost false f = Err AssertionFailed)) ops ->
  forallb none_free ops = false ->
  forall sum, sum_costs (filterCost false) ops sum = Err AssertionFailed.
Proof.
  induction 1 as [| f ops [Hok Hbad] _ IH]; intros Hall sum; simpl in *.
  - discriminate.
  - destruct (none_free f) eqn:Hnf.
    + destruct (Hok eq_refl) as [c ->]. simpl. apply IH, Hall.
    + rewrite (Hbad eq_refl). reflexivity.
Qed.

Lemma filterCost_none_free (f : Filter) :
  (none_free f = true -> exists c, filterCost false f = Ok c) /\
  (none_free f = false -> filterCost false f = Err AssertionFailed).
Proof.
  induction f as [| ops IH | ops IH | ops IH | | | | |] using Filter_tree_ind;
    simpl; try (split; [eauto | discriminate]).
  - split; [discriminate | reflexivity].
  - split; intros Hnf.
    + apply sum_costs_defined; auto. eapply List.Forall_impl; [| exact IH].
      intros x [Hx _]; exact Hx.
    + apply sum_costs_asserts; auto.
  - split; intros Hnf.
    + apply sum_costs_defined; auto. eapply List.Forall_impl; [| exact IH].
      intros x [Hx _]; exact Hx.
    + apply sum_costs_asserts; auto.
  - split; intros Hnf.
    + apply sum_costs_defined; auto. eapply List.Forall_impl; [| exact IH].
      intros x [Hx _]; exact Hx.
    + apply sum_costs_asserts; auto.
Qed.

Lemma filterCost_release_total (f : Filter) : exists c, filterCost true f = Ok c.
Proof.
  induction f as [| ops IH | ops IH | ops IH | | | | |] using Filter_tree_ind;
    simpl; eauto.
  all: generalize 100; induction IH as [| x l [c Hx] _ IHl]; intros s; simpl;
    [eauto | rewrite Hx; simpl; apply IHl].
Qed.

(** C3. The cost is fixed by the shape of the filter alone: [Existence] costs
    20; [EqualitySet], [Equality] and [Range] cost 10 when the value comes
    from the record's property store ([global] undefined) and 1 when a global
    reference is set; [Function] costs 1000; an operator costs 100 plus the
    sum of the costs of its operands, computed in [int] (and exactly that
    sum whenever it is an [int]). *)
Theorem filterCost_values (NDEBUG : bool) :
  (forall k e, filterCost NDEBUG (Existence k e) = Ok 20) /\
  (forall k vs g, filterCost NDEBUG (EqualitySet k vs g)
                  = Ok (match g with undefined => 10 | _ => 1 end)) /\
  (forall k v g, filterCost NDEBUG (Equality k v g)
                 = Ok (match g with undefined => 10 | _ => 1 end)) /\
  (forall k lo hi g, filterCost NDEBUG (Range k lo hi g)
                     = Ok (match g with undefined => 10 | _ => 1 end)) /\
  (forall id, filterCost NDEBUG (Function id) = Ok 1000) /\
  (forall ops cs,
      Forall2 (fun f c => filterCost NDEBUG f = Ok c) ops cs ->
      filterCost NDEBUG (OperatorAny ops) = Ok (int_wrap (100 + sum_list cs)) /\
      filterCost NDEBUG (OperatorAll ops) = Ok (int_wrap (100 + sum_list cs)) /\
      filterCost NDEBUG (OperatorNone ops) = Ok (int_wrap (100 + sum_list cs)) /\
      (in_int_range (100 + sum_list cs) ->
       int_wrap (100 + sum_list cs) = 100 + sum_list cs)).
Proof.
  repeat split; intros; simpl; try (destruct g; reflexivity);
    try (apply sum_costs_total; [assumption | apply hundred_in_range]).
  apply int_wrap_id; assumption.
Qed.

Lemma filterCost_values_witness :
  filterCost false (OperatorAll [Existence "kind" true; Function 3]) = Ok 1120.
Proof.
  destruct (filterCost_values false) as (_ & _ & _ & _ & _ & Hop).
  destruct (Hop [Existence "kind" true; Function 3] [20; 1000])
    as (_ & Hall & _ & _).
  - repeat constructor.
  - rewrite Hall. reflexivity.
Defined.

(** C10. The cost dispatch has no case for the [none_type] alternative:
    on it the function reaches [assert(false)], and returns 0 when the
    assertion is compiled out.  With assertions on, the cost of a filter is
    defined exactly when neither the filter nor any of its transitive
    operands is the [none_type] alternative, and it fails on the assertion
    otherwise. *)
Theorem filterCost_none_undefined :
  filterCost false Filter_none = Err AssertionFailed /\
  filterCost true Filter_none = Ok 0 /\
  (forall f, none_free f = true <-> exists c, filterCost false f = Ok c) /\
  (forall f, none_free f = false <-> filterCost false f = Err AssertionFailed).
Proof.
  split; [reflexivity |]. split; [reflexivity |]. split; intros f.
  - split.
    + apply filterCost_none_free.
    + intros [c Hc]. destruct (none_free f) eqn:Hnf; [reflexivity |].
      apply filterCost_none_free in Hnf. congruence.
  - split.
    + apply filterCost_none_free.
    + intros He. destruct (none_free f) eqn:Hnf; [| reflexivity].
      apply filterCost_none_free in Hnf as [c Hc]. congruence.
Qed.

(** ** Matcher / evaluator *)

Section LoopFacts.
Variable ev : Filter -> bool.

Lemma any_operand_true (ops : list Filter) :
  any_operand ev ops = true <-> exists f, In f ops /\ ev f = true.
Proof.
  induction ops as [| x ops IH]; simpl.
  - split; [discriminate | intros [f [[] _]]].
  - destruct (ev x) eqn:Hx.
    + split; [intros _; exists x; auto | reflexivity].
    + rewrite IH. split.
      * intros [f [Hin Hf]]. exists f; auto.
      * intros [f [[-> | Hin] Hf]]; [congruence | exists f; auto].
Qed.

Lemma all_operands_true (ops : list Filter) :
  all_operands ev ops = true <-> forall f, In f ops -> ev f = true.
Proof.
  induction ops as [| x ops IH]; simpl.
  - split; [intros _ f [] | reflexivity].
  - destruct (ev x) eqn:Hx; simpl.
    + rewrite IH. split.
      * intros H f [<- | Hin]; auto.
      * intros H f Hin. apply H. auto.
    + split; [discriminate |].
      intros H. rewrite <- Hx. apply H. auto.
Qed.

Lemma no_operand_true (ops : list Filter) :
  no_operand ev ops = true <-> ~ exists f, In f ops /\ ev f = true.
Proof.
  induction ops as [| x ops IH]; simpl.
  - split; [intros _ [f [[] _]] | reflexivity].
  - destruct (ev x) eqn:Hx.
    + split; [discriminate |].
      intros H. exfalso. apply H. exists x; auto.
    + rewrite IH. split.
      * intros H [f [[<- | Hin] Hf]]; [congruence |].
        apply H. exists f; auto.
      * intros H [f [Hin Hf]]. apply H. exists f; auto.
Qed.

End LoopFacts.

(** C1. Evaluation of the boolean combinators, for every record and
    context: [OperatorAny] is true iff some operand evaluates true, and
    false without operands; [OperatorAll] is true iff every operand
    evaluates true, and true without operands; [OperatorNone] is true iff
    no operand evaluates true, and true without operands; the [none_type]
    filter always evaluates true. *)
Theorem eval_boolean_combinators (props : gmap string Value) (ctx : StyleContext) :
  (forall ops, eval props ctx (OperatorAny ops) = true
               <-> exists f, In f ops /\ eval props ctx f = true) /\
  eval props ctx (OperatorAny []) = false /\
  (forall ops, eval props ctx (OperatorAll ops) = true
               <-> forall f, In f ops -> eval props ctx f = true) /\
  eval props ctx (OperatorAll []) = true /\
  (forall ops, eval props ctx (OperatorNone ops) = true
               <-> ~ exists f, In f ops /\ eval props ctx f = true) /\
  eval props ctx (OperatorNone []) = true /\
  eval props ctx Filter_none = true.
Proof.
  repeat split; try reflexivity; simpl.
  all: try apply any_operand_true; try apply all_operands_true;
    try apply no_operand_true.
Qed.

(** ** Value matchers *)

Ltac split_all := repeat match goal with |- _ /\ _ => split end.

Lemma any_value_true (m : Value -> bool) (values : list Value) :
  any_value m values = true <-> exists v, In v values /\ m v = true.
Proof.
  induction values as [| x values IH]; simpl.
  - split; [discriminate | intros [v [[] _]]].
  - destruct (m x) eqn:Hx.
    + split; [intros _; exists x; auto | reflexivity].
    + rewrite IH. split.
      * intros [v [Hin Hv]]. exists v; auto.
      * intros [v [[-> | Hin] Hv]]; [congruence | exists v; auto].
Qed.

Lemma string_matcher_true (str : string) (v : Value) :
  string_matcher str v = true <-> values_equal (Value_string str) v.
Proof.
  destruct v as [| a | t]; simpl; try (split; [discriminate | tauto]).
  apply String.eqb_eq.
Qed.

Lemma number_matcher_true (num : double) (v : Value) :
  number_matcher num v = true <-> values_equal (Value_double num) v.
Proof.
  destruct v as [| a | t]; simpl; try (split; [discriminate | tauto]).
  destruct (PrimFloat.eqb num a); split; auto.
  intros [H | H]; [discriminate | exact H].
Qed.

Lemma match_equal_true (value x : Value) :
  match_equal value x = true <-> values_equal x value.
Proof.
  destruct x as [| num | str]; simpl.
  - split; [discriminate | tauto].
  - apply number_matcher_true.
  - apply string_matcher_true.
Qed.

Lemma match_equal_set_true (values : list Value) (x : Value) :
  match_equal_set values x = true <->
  exists v, In v values /\ values_equal x v.
Proof.
  destruct x as [| num | str]; simpl.
  - split; [discriminate | intros [v [_ []]]].
  - rewrite any_value_true. split; intros [v [Hin Hv]]; exists v; split; auto;
      apply number_matcher_true; exact Hv.
  - rewrite any_value_true. split; intros [v [Hin Hv]]; exists v; split; auto;
      apply string_matcher_true; exact Hv.
Qed.

(** The order of binary64 values, on their specification: nothing lies
    at or above a bound and strictly below a strictly smaller one. *)
Lemma SFcompare_chain (a b c : spec_float) :
  SFltb c a = true -> SFleb a b = true -> SFltb b c = true -> False.
Proof.
  unfold SFltb, SFleb, SFcompare.
  destruct a as [sa | sa | | sa ma ea], b as [sb | sb | | sb mb eb],
    c as [sc | sc | | sc mc ec]; try discriminate;
    repeat match goal with s : bool |- _ => destruct s end; try discriminate.
  all: fold (Pos.compare mc ma); fold (Pos.compare ma mb); fold (Pos.compare mb mc).
  all: destruct (Z.compare_spec ec ea); destruct (Z.compare_spec ea eb);
       destruct (Z.compare_spec eb ec); try discriminate; try lia.
  all: destruct (Pos.compare_spec mc ma); destruct (Pos.compare_spec ma mb);
       destruct (Pos.compare_spec mb mc); simpl; try discriminate; try lia.
Qed.

Lemma double_order_chain (lo num hi : double) :
  PrimFloat.ltb hi lo = true -> PrimFloat.leb lo num = true ->
  PrimFloat.ltb num hi = true -> False.
Proof.
  rewrite !ltb_spec, leb_spec. apply SFcompare_chain.
Qed.

Lemma match_range_true (lo hi : double) (x : Value) :
  match_range lo hi x = true <->
  exists num, x = Value_double num /\
              PrimFloat.leb lo num = true /\ PrimFloat.ltb num hi = true.
Proof.
  destruct x as [| num | str]; simpl.
  - split; [discriminate | intros [n [Hn _]]; discriminate].
  - rewrite andb_true_iff. split.
    + intros [H1 H2]. exists num; auto.
    + intros [n [Hn [H1 H2]]]. injection Hn as ->. auto.
  - split; [discriminate | intros [n [Hn _]]; discriminate].
Qed.

(** C4. Equality matching is type-directed with a numeric tolerance.  With
    [x] the value resolved for the filter: a string filter value matches iff
    [x] is that very string; a numeric filter value [a] matches iff [x] is a
    number [b] with [b == a] or [|b - a|] at most the machine epsilon; a
    string never matches a number nor a number a string; the absent
    sentinel matches nothing, whether resolved or asked for. *)
Theorem equality_type_directed (props : gmap string Value) (ctx : StyleContext)
  (k : string) (g : FilterGlobal) :
  (forall v, eval props ctx (Equality k v g) = true
             <-> values_equal (resolve props ctx k g) v) /\
  (forall s, eval props ctx (Equality k (Value_string s) g) = true
             <-> resolve props ctx k g = Value_string s) /\
  (forall a, eval props ctx (Equality k (Value_double a) g) = true
             <-> exists b, resolve props ctx k g = Value_double b /\
                   (PrimFloat.eqb b a = true \/
                    PrimFloat.leb (fabs (PrimFloat.sub b a)) DBL_EPSILON = true)) /\
  (forall s b, resolve props ctx k g = Value_double b ->
               eval props ctx (Equality k (Value_string s) g) = false) /\
  (forall a t, resolve props ctx k g = Value_string t ->
               eval props ctx (Equality k (Value_double a) g) = false) /\
  (forall v, resolve props ctx k g = Value_none ->
             eval props ctx (Equality k v g) = false) /\
  eval props ctx (Equality k Value_none g) = false.
Proof.
  simpl. split_all.
  - intros v. apply match_equal_true.
  - intros s. rewrite match_equal_true.
    destruct (resolve props ctx k g) as [| b | t]; simpl.
    + split; [tauto | discriminate].
    + split; [tauto | discriminate].
    + split; [intros ->; reflexivity | intros H; injection H; auto].
  - intros a. rewrite match_equal_true.
    destruct (resolve props ctx k g) as [| b | t]; simpl.
    + split; [tauto | intros [b [Hb _]]; discriminate].
    + split; [intros H; exists b; auto |].
      intros [b' [Hb H]]. injection Hb as ->. exact H.
    + split; [tauto | intros [b [Hb _]]; discriminate].
  - intros s b ->. reflexivity.
  - intros a t ->. reflexivity.
  - intros v ->. reflexivity.
  - destruct (resolve props ctx k g); reflexivity.
Qed.

(** C5. A [Range] filter matches iff the resolved value is a number [num]
    with [min <= num < max]; a string, the absent sentinel and a key
    missing from the record never match; a range with [min > max] matches
    no value at all. *)
Theorem range_matching (props : gmap string Value) (ctx : StyleContext)
  (k : string) (lo hi : double) (g : FilterGlobal) :
  (eval props ctx (Range k lo hi g) = true
   <-> exists num, resolve props ctx k g = Value_double num /\
                   PrimFloat.leb lo num = true /\ PrimFloat.ltb num hi = true) /\
  (forall s, resolve props ctx k g = Value_string s ->
             eval props ctx (Range k lo hi g) = false) /\
  (resolve props ctx k g = Value_none ->
   eval props ctx (Range k lo hi g) = false) /\
  (props !! k = None -> eval props ctx (Range k lo hi undefined) = false) /\
  (PrimFloat.ltb hi lo = true -> eval props ctx (Range k lo hi g) = false).
Proof.
  simpl. split_all.
  - apply match_range_true.
  - intros s ->. reflexivity.
  - intros ->. reflexivity.
  - intros Hk. unfold resolve, props_get. simpl. rewrite Hk. reflexivity.
  - intros Hbad. apply not_true_is_false. rewrite match_range_true.
    intros [num [_ [H1 H2]]]. exact (double_order_chain lo num hi Hbad H1 H2).
Qed.

(** C6. An [EqualitySet] filter matches iff the resolved value equals at
    least one entry of the accepted set under the per-type equality rule,
    which is the rule of the [Equality] filter; with no entry it matches no
    record. *)
Theorem equality_set_matching (props : gmap string Value) (ctx : StyleContext)
  (k : string) (g : FilterGlobal) :
  (forall vs, eval props ctx (EqualitySet k vs g) = true
              <-> exists v, In v vs /\ values_equal (resolve props ctx k g) v) /\
  (forall vs, eval props ctx (EqualitySet k vs g) = true
              <-> exists v, In v vs /\ eval props ctx (Equality k v g) = true) /\
  eval props ctx (EqualitySet k [] g) = false.
Proof.
  simpl. split_all.
  - intros vs. apply match_equal_set_true.
  - intros vs. rewrite match_equal_set_true.
    split; intros [v [Hin Hv]]; exists v; split; auto;
      apply match_equal_true; exact Hv.
  - destruct (resolve props ctx k g); reflexivity.
Qed.

(** ** Sibling sorter *)

Section StdSortFacts.
Context {A : Type}.
Variable comp : A -> A -> result bool.

Lemma unguarded_linear_insert_perm (val first : A) (before : list A) :
  comp val first = Ok false ->
  (forall p, In p before -> exists c, comp val p = Ok c) ->
  exists r, unguarded_linear_insert comp val (before ++ [first]) = Ok r /\
            Permutation (val :: before ++ [first]) r.
Proof.
  intros Hfirst. induction before as [| p before IH]; intros Hdef; simpl.
  - rewrite Hfirst. simpl. eexists; split; [reflexivity | apply Permutation_refl].
  - destruct (Hdef p (or_introl eq_refl)) as [c Hc]. rewrite Hc. simpl.
    destruct c.
    + destruct IH as [r [Hr Hperm]]; [intros q Hq; apply Hdef; right; exact Hq |].
      rewrite Hr. simpl. eexists; split; [reflexivity |].
      eapply Permutation_trans; [apply perm_swap |].
      apply perm_skip. exact Hperm.
    + eexists; split; [reflexivity | apply Permutation_refl].
Qed.

Lemma insertion_step_perm (prefix : list A) (val : A) :
  (forall p, In p prefix -> exists c, comp val p = Ok c) ->
  exists r, insertion_step comp prefix val = Ok r /\
            Permutation (prefix ++ [val]) r.
Proof.
  intros Hdef. destruct prefix as [| first tl]; simpl.
  - eexists; split; [reflexivity | apply Permutation_refl].
  - destruct (Hdef first (or_introl eq_refl)) as [c Hc]. rewrite Hc. simpl.
    destruct c.
    + eexists; split; [reflexivity |].
      apply Permutation_sym. apply (Permutation_cons_append (first :: tl) val).
    + destruct (unguarded_linear_insert_perm val first (rev tl) Hc) as [r [Hr Hperm]].
      { intros p Hp. apply Hdef. right. apply in_rev. exact Hp. }
      rewrite Hr. simpl. eexists; split; [reflexivity |].
      eapply Permutation_trans; [| apply Permutation_rev].
      eapply Permutation_trans; [| exact Hperm].
      eapply Permutation_trans;
        [apply Permutation_sym; apply (Permutation_cons_append (first :: tl) val) |].
      apply perm_skip.
      change (first :: tl) with ([first] ++ tl).
      eapply Permutation_trans; [apply Permutation_app_comm |].
      apply Permutation_app_tail. apply Permutation_rev.
Qed.

Lemma insertion_sort_from_perm (rest prefix : list A) :
  (forall a b, In a (prefix ++ rest) -> In b (prefix ++ rest) ->
               exists c, comp a b = Ok c) ->
  exists out, insertion_sort_from comp prefix rest = Ok out /\
              Permutation (prefix ++ rest) out.
Proof.
  revert prefix. induction rest as [| val rest IH]; intros prefix Hdef; simpl.
  - rewrite app_nil_r. eexists; split; [reflexivity | apply Permutation_refl].
  - destruct (insertion_step_perm prefix val) as [r [Hr Hperm]].
    { intros p Hp. apply Hdef; apply in_or_app; [right; left | left]; auto. }
    rewrite Hr. simpl.
    assert (Hall : Permutation (prefix ++ val :: rest) (r ++ rest)).
    { change (val :: rest) with ([val] ++ rest). rewrite app_assoc.
      apply Permutation_app_tail. exact Hperm. }
    destruct (IH r) as [out [Hout Hp]].
    { intros a b Ha Hb.
      apply Hdef; eapply Permutation_in;
        try (apply Permutation_sym; exact Hall); assumption. }
    exists out. split; [exact Hout |].
    eapply Permutation_trans; [exact Hall | exact Hp].
Qed.

Lemma std_sort_perm (v : list A) :
  (forall a b, In a v -> In b v -> exists c, comp a b = Ok c) ->
  exists out, std_sort comp v = Ok out /\ Permutation v out.
Proof.
  intros Hdef. destruct v as [| first rest]; simpl.
  - eexists; split; [reflexivity | apply Permutation_refl].
  - apply (insertion_sort_from_perm rest [first]). exact Hdef.
Qed.

End StdSortFacts.

(** C8 as stated, for every input sequence, does not hold: with assertions
    enabled the comparator costs both siblings first, and on two
    [none_type] filters the cost dispatch reaches [assert(false)], so [sort]
    returns no sequence at all. *)
Lemma sort_aborts_on_none_type :
  sort false [Filter_none; Filter_none] = Err AssertionFailed /\
  ~ (exists out, sort false [Filter_none; Filter_none] = Ok out /\
                 Permutation [Filter_none; Filter_none] out).
Proof.
  split; [reflexivity |]. intros [out [Hout _]]. discriminate Hout.
Qed.

(** C9. [compareSetFilter] reads the first operand of both filters
    without checking for emptiness.  Reached with equal operand counts, the
    read is out of bounds exactly when the operand sequences are empty; so
    two cost-tied siblings, one of them an operator, with empty operand
    sequences send the comparator of [sort] out of bounds, and the indexing
    is in bounds as soon as the first filter has an operand. *)
Theorem compareSetFilter_unguarded_front (NDEBUG : bool) :
  (forall a b, length (operands a) = length (operands b) ->
     (compareSetFilter a b = Err IndexOutOfRange
      <-> operands a = [] /\ operands b = [])) /\
  (forall a b c,
     filterCost NDEBUG a = Ok c -> filterCost NDEBUG b = Ok c ->
     isOperator a || isOperator b = true ->
     operands a = [] -> operands b = [] ->
     sort_less NDEBUG a b = Err IndexOutOfRange) /\
  (forall a b, operands a <> [] -> compareSetFilter a b <> Err IndexOutOfRange).
Proof.
  assert (Hfront : forall x oa y ob,
    (let! oa0 := vector_at (x :: oa) 0 in
     if is_Range oa0 then
       let! ob0 := vector_at (y :: ob) 0 in
       if is_Range ob0 && String.eqb (key oa0) (key ob0) then
         let! ra := get_Range oa0 in
         let! rb := get_Range ob0 in
         if isinf (snd ra) && isinf (snd rb)
         then double_to_int (PrimFloat.sub (fst rb) (fst ra))
         else Ok 0
       else Ok 0
     else Ok 0) <> Err IndexOutOfRange).
  { intros x oa y ob. simpl.
    destruct x; simpl; try discriminate.
    destruct y; simpl; try discriminate.
    destruct (String.eqb _ _); simpl; try discriminate.
    destruct (isinf _ && isinf _); try discriminate.
    unfold double_to_int. destruct (double_trunc _); try discriminate.
    destruct (_ && _); discriminate. }
  split_all.
  - intros a b Hlen. unfold compareSetFilter.
    rewrite Hlen, Nat.eqb_refl. simpl.
    destruct (operands a) as [| x oa], (operands b) as [| y ob];
      try discriminate Hlen.
    + simpl. split; auto.
    + split; [intros H; exfalso; exact (Hfront x oa y ob H) |].
      intros [H _]; discriminate.
  - intros a b c Ha Hb Hop Hoa Hob. unfold sort_less.
    rewrite Ha, Hb. simpl.
    apply orb_true_iff in Hop.
    assert (Hnot : negb (isOperator a) && negb (isOperator b) = false).
    { destruct Hop as [-> | ->]; simpl; [reflexivity | apply andb_false_r]. }
    rewrite Hnot, Z.eqb_refl. simpl.
    unfold compareSetFilter. rewrite Hoa, Hob. reflexivity.
  - intros a b Hoa. unfold compareSetFilter.
    destruct (negb (length (operands a) =? length (operands b))%nat) eqn:Hlen;
      [discriminate |].
    apply negb_false_iff, Nat.eqb_eq in Hlen.
    destruct (operands a) as [| x oa]; [congruence |].
    destruct (operands b) as [| y ob]; [discriminate Hlen |].
    apply Hfront.
Qed.

Lemma compareSetFilter_unguarded_front_witness :
  sort_less false (OperatorAny []) (OperatorAll []) = Err IndexOutOfRange.
Proof.
  apply (proj1 (proj2 (compareSetFilter_unguarded_front false))
           (OperatorAny []) (OperatorAll []) 100);
    reflexivity.
Defined.

(** C2. The tie-break by operand count does not order anything: the size
    comparison is returned as 0 or 1 and the caller tests for a negative
    result.  Two cost-tied siblings with different operand counts, one of
    them an operator, therefore compare as equivalent in both directions,
    and [sort] leaves the filter with two operands before the one with a
    single operand. *)
Theorem operand_count_tie_left_unordered (NDEBUG : bool) :
  filterCost NDEBUG one_operand = Ok 120 /\
  filterCost NDEBUG two_operands = Ok 120 /\
  length (operands one_operand) = 1%nat /\
  length (operands two_operands) = 2%nat /\
  compareSetFilter one_operand two_operands = Ok 1 /\
  sort_less NDEBUG one_operand two_operands = Ok false /\
  sort_less NDEBUG two_operands one_operand = Ok false /\
  sort NDEBUG [two_operands; one_operand] = Ok [two_operands; one_operand] /\
  (forall a b c,
     filterCost NDEBUG a = Ok c -> filterCost NDEBUG b = Ok c ->
     isOperator a || isOperator b = true ->
     length (operands a) <> length (operands b) ->
     sort_less NDEBUG a b = Ok false).
Proof.
  do 8 (split; [destruct NDEBUG; vm_compute; reflexivity |]).
  intros a b c Ha Hb Hop Hlen. unfold sort_less.
  rewrite Ha, Hb. simpl.
  apply orb_true_iff in Hop.
  assert (Hnot : negb (isOperator a) && negb (isOperator b) = false).
  { destruct Hop as [-> | ->]; simpl; [reflexivity | apply andb_false_r]. }
  rewrite Hnot, Z.eqb_refl. simpl.
  unfold compareSetFilter.
  apply Nat.eqb_neq in Hlen. rewrite Hlen. simpl.
  destruct (length (operands a) <? length (operands b))%nat; reflexivity.
Qed.

(** C7. The tie-break on the lower bounds converts their difference to
    [int]: a difference of less than one in absolute value becomes 0.  The
    sibling whose range starts at 0.5 is not ordered before the one whose
    range starts at 0, and [sort] leaves them as given. *)
Theorem range_tie_break_truncates (NDEBUG : bool) :
  PrimFloat.ltb 0 0.5 = true /\
  filterCost NDEBUG range_from_half = Ok 110 /\
  filterCost NDEBUG range_from_zero = Ok 110 /\
  compareSetFilter range_from_half range_from_zero = Ok 0 /\
  sort_less NDEBUG range_from_half range_from_zero = Ok false /\
  sort NDEBUG [range_from_zero; range_from_half]
  = Ok [range_from_zero; range_from_half].
Proof.
  split_all; destruct NDEBUG; vm_compute; reflexivity.
Qed.

(** ** Further properties of the cost model and of the comparator *)

Lemma cost_nonneg (f : Filter) : 0 <= cost f.
Proof.
  induction f as [| ops IH | ops IH | ops IH | | | | |] using Filter_tree_ind;
    simpl; try lia; try (destruct g; lia).
  all: induction IH as [| x l Hx _ IHl]; simpl in *; lia.
Qed.

Lemma cost_operands_total (ops : list Filter) :
  fold_right (fun x acc => cost x + acc) 0 ops = sum_list (map cost ops).
Proof.
  induction ops as [| x ops IH]; simpl; [reflexivity | rewrite IH; reflexivity].
Qed.

Lemma cost_operand_le (ops : list Filter) (x : Filter) :
  In x ops -> cost x <= sum_list (map cost ops).
Proof.
  induction ops as [| y ops IH]; simpl; [tauto |].
  intros [-> | Hin].
  - assert (0 <= sum_list (map cost ops)).
    { clear. induction ops as [| z ops IH]; simpl; [lia |].
      pose proof (cost_nonneg z). lia. }
    lia.
  - pose proof (cost_nonneg y). specialize (IH Hin). lia.
Qed.

Lemma operator_cost_refines (NDEBUG : bool) (ops : list Filter) :
  Forall (fun f => (NDEBUG = true \/ none_free f = true) -> cost f <= INT_MAX ->
                   filterCost NDEBUG f = Ok (cost f)) ops ->
  (NDEBUG = true \/ forallb none_free ops = true) ->
  100 + sum_list (map cost ops) <= INT_MAX ->
  sum_costs (filterCost NDEBUG) ops 100 = Ok (100 + sum_list (map cost ops)).
Proof.
  intros IH Hnf Hmax.
  assert (Hcs : Forall2 (fun f c => filterCost NDEBUG f = Ok c) ops (map cost ops)).
  { assert (Hle : forall x, In x ops -> cost x <= INT_MAX).
    { intros x Hx. pose proof (cost_operand_le ops x Hx). lia. }
    clear Hmax. induction IH as [| x l Hx _ IHl]; simpl; constructor.
    - apply Hx.
      + destruct Hnf as [-> | Hnf]; [left; reflexivity | right].
        simpl in Hnf. apply andb_true_iff in Hnf. tauto.
      + apply Hle. left. reflexivity.
    - apply IHl.
      + destruct Hnf as [-> | Hnf]; [left; reflexivity | right].
        simpl in Hnf. apply andb_true_iff in Hnf. tauto.
      + intros y Hy. apply Hle. right. exact Hy. }
  rewrite (sum_costs_total NDEBUG ops (map cost ops) Hcs 100 hundred_in_range).
  f_equal. apply int_wrap_id. unfold in_int_range, INT_MIN.
  assert (0 <= sum_list (map cost ops)).
  { clear. induction ops as [| z ops IH]; simpl; [lia |].
    pose proof (cost_nonneg z). lia. }
  lia.
Qed.

(** X1. The cost estimator computes the cost table of the spec on every tree
    whose cost fits an [int], provided the tree has no [none_type] node or
    assertions are off. *)
Theorem filterCost_refines_cost (NDEBUG : bool) (f : Filter) :
  NDEBUG = true \/ none_free f = true ->
  cost f <= INT_MAX ->
  filterCost NDEBUG f = Ok (cost f).
Proof.
  induction f as [| ops IH | ops IH | ops IH | | | | |] using Filter_tree_ind;
    intros Hnf Hmax; simpl in *;
    try reflexivity; try (destruct g; reflexivity).
  - destruct Hnf as [-> | Hnf]; [reflexivity | discriminate].
  - rewrite cost_operands_total in *. apply operator_cost_refines; assumption.
  - rewrite cost_operands_total in *. apply operator_cost_refines; assumption.
  - rewrite cost_operands_total in *. apply operator_cost_refines; assumption.
Qed.

Lemma filterCost_refines_cost_witness :
  filterCost false (OperatorAny [two_operands; Function 3; Range "height" 0 10 zoom])
  = Ok 1221.
Proof.
  apply (filterCost_refines_cost false
           (OperatorAny [two_operands; Function 3; Range "height" 0 10 zoom])).
  - right. reflexivity.
  - vm_compute. discriminate.
Defined.

Lemma leaf_cost_bounds (NDEBUG : bool) (f : Filter) (c : Z) :
  isOperator f = false -> filterCost NDEBUG f = Ok c -> 0 <= c <= 1000.
Proof.
  destruct f; simpl; try discriminate; intros _ H.
  - destruct NDEBUG; [injection H as <-; lia | discriminate].
  - injection H as <-. destruct (FilterGlobal_eqb _ _); lia.
  - injection H as <-. destruct (FilterGlobal_eqb _ _); lia.
  - injection H as <-. destruct (FilterGlobal_eqb _ _); lia.
  - injection H as <-. lia.
  - injection H as <-. lia.
Qed.

(** X2. Two simple filters are compared by cost, the cheaper first; on equal
    costs the one with the greater key comes first. *)
Theorem sort_less_simple_filters (NDEBUG : bool) (a b : Filter) (ca cb : Z) :
  isOperator a = false -> isOperator b = false ->
  filterCost NDEBUG a = Ok ca -> filterCost NDEBUG b = Ok cb ->
  sort_less NDEBUG a b
  = Ok (if ca =? cb then string_gt (key a) (key b) else ca <? cb).
Proof.
  intros Ha Hb Hca Hcb. unfold sort_less. rewrite Hca, Hcb, Ha, Hb. simpl.
  pose proof (leaf_cost_bounds NDEBUG a ca Ha Hca) as Ba.
  pose proof (leaf_cost_bounds NDEBUG b cb Hb Hcb) as Bb.
  unfold int_sub. rewrite int_wrap_id
    by (unfold in_int_range, INT_MIN, INT_MAX; lia).
  destruct (Z.eqb_spec ca cb) as [-> | Hne].
  - rewrite Z.sub_diag. reflexivity.
  - destruct (Z.eqb_spec (ca - cb) 0) as [H0 | H0]; [lia |]. simpl.
    f_equal. destruct (Z.ltb_spec (ca - cb) 0), (Z.ltb_spec ca cb);
      try reflexivity; lia.
Qed.

Lemma sort_less_simple_filters_witness :
  sort_less false (Equality "zoom" (Value_double 3) undefined)
                  (Equality "geom" (Value_double 3) undefined) = Ok true.
Proof.
  apply (sort_less_simple_filters false
           (Equality "zoom" (Value_double 3) undefined)
           (Equality "geom" (Value_double 3) undefined) 10 10);
    reflexivity.
Defined.

(** ** The testable properties of the spec, evaluated *)

Example numeric_equality_is_tolerant :
  map (fun x => eval {[ "height" := Value_double x ]}
                  {| getGlobal := fun _ => Value_none; evalFilter := fun _ => false |}
                  (Equality "height" (Value_double 1) undefined))
      [1 + 0x1p-53; 1 + 0x1p-52; 1 - 0x1p-53; 1 + 0x1p-51]%float
  = [true; true; true; false].
Proof. reflexivity. Qed.

Example type_mismatch_never_matches :
  eval {[ "height" := Value_double 5 ]}
       {| getGlobal := fun _ => Value_none; evalFilter := fun _ => false |}
       (Equality "height" (Value_string "5") undefined) = false /\
  eval {[ "height" := Value_string "5" ]}
       {| getGlobal := fun _ => Value_none; evalFilter := fun _ => false |}
       (Equality "height" (Value_double 5) undefined) = false.
Proof. split; reflexivity. Qed.

Example range_zero_to_ten :
  map (fun x => eval {[ "height" := Value_double x ]}
                  {| getGlobal := fun _ => Value_none; evalFilter := fun _ => false |}
                  (Range "height" 0 10 undefined))
      [0; 0x1.3ff7ced916873p+3; 10; -0x1.0624dd2f1a9fcp-10]%float
  = [true; true; false; false].
Proof. reflexivity. Qed.

Example equality_set_one_two_three :
  map (fun x => eval {[ "height" := Value_double x ]}
                  {| getGlobal := fun _ => Value_none; evalFilter := fun _ => false |}
                  (EqualitySet "height"
                     [Value_double 1; Value_double 2; Value_double 3] undefined))
      [2; 4]%float
  = [true; false].
Proof. reflexivity. Qed.

Example cheaper_simple_filter_first :
  sort false [Existence "kind" true; Equality "kind" (Value_string "park") undefined]
  = Ok [Equality "kind" (Value_string "park") undefined; Existence "kind" true].
Proof. reflexivity. Qed.

Example zoom_before_geom :
  sort false [Equality "geom" (Value_double 1) undefined;
              Equality "zoom" (Value_double 1) undefined]
  = Ok [Equality "zoom" (Value_double 1) undefined;
        Equality "geom" (Value_double 1) undefined].
Proof. reflexivity. Qed.

Example larger_min_first_when_one_apart :
  sort false [range_from_zero; OperatorAll [Range "height" 5 infinity undefined]]
  = Ok [OperatorAll [Range "height" 5 infinity undefined]; range_from_zero].
Proof. reflexivity. Qed.

Example nan_matches_nothing :
  number_matcher nan (Value_double nan) = false.
Proof. reflexivity. Qed.

(** ** Sortedness of the result under a strict weak order *)

Section StdSortSorted.
Context {A : Type}.
Variable lt : A -> A -> bool.
Hypothesis lt_asym : forall a b, lt a b = true -> lt b a = false.
Hypothesis lt_trans : forall a b c, lt a b = true -> lt b c = true -> lt a c = true.
Hypothesis lt_negtrans :
  forall a b c, lt a b = false -> lt b c = false -> lt a c = false.

Lemma descending_app (l1 l2 : list A) :
  descending lt (l1 ++ l2) <->
  descending lt l1 /\ descending lt l2 /\
  (forall x y, In x l1 -> In y l2 -> lt x y = false).
Proof.
  unfold descending. induction l1 as [| a l1 IH]; simpl.
  - split; [intros H; split_all; [constructor | exact H | tauto] | tauto].
  - split.
    + intros H. apply StronglySorted_inv in H as [Hs Hall].
      apply IH in Hs as (H1 & H2 & H12).
      rewrite List.Forall_forall in Hall. split_all.
      * constructor; [exact H1 |]. apply List.Forall_forall.
        intros x Hx. apply Hall, in_or_app. auto.
      * exact H2.
      * intros x y [<- | Hx] Hy; [apply Hall, in_or_app; auto | auto].
    + intros (H1 & H2 & H12). apply StronglySorted_inv in H1 as [Hs Hall].
      rewrite List.Forall_forall in Hall.
      constructor.
      * apply IH. split_all; auto.
      * apply List.Forall_forall. intros x Hx.
        apply in_app_or in Hx as [Hx | Hx]; auto.
Qed.

Lemma ascending_app (l1 l2 : list A) :
  ascending lt (l1 ++ l2) <->
  ascending lt l1 /\ ascending lt l2 /\
  (forall x y, In x l1 -> In y l2 -> lt y x = false).
Proof.
  unfold ascending. induction l1 as [| a l1 IH]; simpl.
  - split; [intros H; split_all; [constructor | exact H | tauto] | tauto].
  - split.
    + intros H. apply StronglySorted_inv in H as [Hs Hall].
      apply IH in Hs as (H1 & H2 & H12).
      rewrite List.Forall_forall in Hall. split_all.
      * constructor; [exact H1 |]. apply List.Forall_forall.
        intros x Hx. apply Hall, in_or_app. auto.
      * exact H2.
      * intros x y [<- | Hx] Hy; [apply Hall, in_or_app; auto | auto].
    + intros (H1 & H2 & H12). apply StronglySorted_inv in H1 as [Hs Hall].
      rewrite List.Forall_forall in Hall.
      constructor.
      * apply IH. split_all; auto.
      * apply List.Forall_forall. intros x Hx.
        apply in_app_or in Hx as [Hx | Hx]; auto.
Qed.

Lemma ascending_rev (l : list A) : ascending lt (rev l) <-> descending lt l.
Proof.
  induction l as [| a l IH]; simpl.
  - split; intros _; constructor.
  - rewrite ascending_app, IH. split.
    + intros (Hl & _ & Hall). constructor; [exact Hl |].
      apply List.Forall_forall. intros x Hx.
      apply Hall; [apply -> in_rev; exact Hx | left; reflexivity].
    + intros H. apply StronglySorted_inv in H as [Hs Hall].
      rewrite List.Forall_forall in Hall. split_all.
      * exact Hs.
      * repeat constructor.
      * intros x y Hx [<- | []]. apply Hall. apply in_rev. exact Hx.
Qed.

Variable comp : A -> A -> result bool.

Lemma unguarded_linear_insert_sorted (val : A) (rprefix r : list A) :
  (forall p, In p rprefix -> comp val p = Ok (lt val p)) ->
  descending lt rprefix ->
  unguarded_linear_insert comp val rprefix = Ok r ->
  descending lt r /\ (forall x, In x r <-> x = val \/ In x rprefix).
Proof.
  revert r. induction rprefix as [| next before IH]; intros r Hcomp Hs; simpl.
  - discriminate.
  - rewrite (Hcomp next (or_introl eq_refl)). simpl.
    apply StronglySorted_inv in Hs as [Hs Hall].
    rewrite List.Forall_forall in Hall.
    destruct (lt val next) eqn:Hlt.
    + destruct (unguarded_linear_insert comp val before) as [r' | e] eqn:Hr';
        simpl; [| discriminate].
      intros H. injection H as <-.
      destruct (IH r') as [Hs' Hin']; auto.
      { intros p Hp. apply Hcomp. right. exact Hp. }
      split.
      * constructor; [exact Hs' |]. apply List.Forall_forall. intros x Hx.
        apply Hin' in Hx as [-> | Hx]; [apply lt_asym; exact Hlt | auto].
      * intros x. simpl. rewrite Hin'. tauto.
    + intros H. injection H as <-. split.
      * constructor; [constructor; [exact Hs | apply List.Forall_forall; exact Hall] |].
        apply List.Forall_forall. intros x [<- | Hx]; [exact Hlt |].
        apply (lt_negtrans val next x); auto.
      * intros x. simpl. intuition congruence.
Qed.

Lemma insertion_step_sorted (prefix r : list A) (val : A) :
  (forall p, In p prefix -> comp val p = Ok (lt val p)) ->
  ascending lt prefix ->
  insertion_step comp prefix val = Ok r ->
  ascending lt r /\ (forall x, In x r <-> x = val \/ In x prefix).
Proof.
  intros Hcomp Hs. destruct prefix as [| first tl]; simpl.
  - intros H. injection H as <-. split; [repeat constructor | simpl; intuition congruence].
  - rewrite (Hcomp first (or_introl eq_refl)). simpl.
    destruct (lt val first) eqn:Hlt.
    + intros H. injection H as <-. split; [| simpl; intuition congruence].
      constructor; [exact Hs |].
      apply StronglySorted_inv in Hs as [_ Hall].
      rewrite List.Forall_forall in Hall.
      apply List.Forall_forall. intros x [<- | Hx].
      * apply lt_asym. exact Hlt.
      * destruct (lt x val) eqn:Hx'; [| reflexivity].
        rewrite <- (Hall x Hx). symmetry. apply (lt_trans x val first); auto.
    + destruct (unguarded_linear_insert comp val (rev tl ++ [first])) as [r' | e] eqn:Hr';
        simpl; [| discriminate].
      intros H. injection H as <-.
      destruct (unguarded_linear_insert_sorted val (rev tl ++ [first]) r') as [Hs' Hin'].
      * intros p Hp. apply Hcomp. change (In p (rev (first :: tl))) in Hp.
        apply in_rev in Hp. exact Hp.
      * apply ascending_rev. change (ascending lt (rev (rev (first :: tl)))).
        rewrite rev_involutive. exact Hs.
      * exact Hr'.
      * split; [apply ascending_rev; exact Hs' |].
        intros x. rewrite <- in_rev, Hin'.
        change (In x (rev tl ++ [first])) with (In x (rev (first :: tl))).
        rewrite <- in_rev. reflexivity.
Qed.

Lemma insertion_sort_from_sorted (rest prefix out : list A) :
  (forall a b, In a (prefix ++ rest) -> In b (prefix ++ rest) ->
               comp a b = Ok (lt a b)) ->
  ascending lt prefix ->
  insertion_sort_from comp prefix rest = Ok out ->
  ascending lt out.
Proof.
  revert prefix. induction rest as [| val rest IH]; intros prefix Hcomp Hs; simpl.
  - intros H. injection H as <-. exact Hs.
  - destruct (insertion_step comp prefix val) as [r | e] eqn:Hr; simpl;
      [| discriminate].
    destruct (insertion_step_sorted prefix r val) as [Hs' Hin']; auto.
    { intros p Hp. apply Hcomp; apply in_or_app; [right; left | left]; auto. }
    apply IH; [| exact Hs'].
    intros a b Ha Hb. apply Hcomp.
    + apply in_app_or in Ha as [Ha | Ha]; apply in_or_app;
        [apply Hin' in Ha as [-> | Ha]; [right; left | left] | right; right]; auto.
    + apply in_app_or in Hb as [Hb | Hb]; apply in_or_app;
        [apply Hin' in Hb as [-> | Hb]; [right; left | left] | right; right]; auto.
Qed.

Lemma std_sort_sorted (v out : list A) :
  (forall a b, In a v -> In b v -> comp a b = Ok (lt a b)) ->
  std_sort comp v = Ok out -> ascending lt out.
Proof.
  intros Hcomp. destruct v as [| first rest]; simpl.
  - intros H. injection H as <-. constructor.
  - apply insertion_sort_from_sorted; [exact Hcomp | repeat constructor].
Qed.

End StdSortSorted.

(** *** The order of simple filters is a strict weak order *)

Lemma string_gt_false (a b : string) :
  string_gt a b = false <-> String.le a b.
Proof.
  unfold string_gt, String.le, String.leb.
  destruct (String.compare a b); simpl; intuition discriminate.
Qed.

Lemma string_gt_negtrans (a b c : string) :
  string_gt a b = false -> string_gt b c = false -> string_gt a c = false.
Proof.
  rewrite !string_gt_false. intros Hab Hbc. etrans; eassumption.
Qed.

Lemma string_gt_asym (a b : string) :
  string_gt a b = true -> string_gt b a = false.
Proof.
  intros Hab. apply string_gt_false.
  destruct (total String.le a b) as [H | H]; [| exact H].
  apply string_gt_false in H. congruence.
Qed.

Lemma string_gt_trans (a b c : string) :
  string_gt a b = true -> string_gt b c = true -> string_gt a c = true.
Proof.
  intros Hab Hbc. destruct (string_gt a c) eqn:Hac; [reflexivity |].
  apply string_gt_asym, string_gt_false in Hbc.
  apply string_gt_false in Hac.
  assert (Hle : String.le a b) by (etrans; eassumption).
  apply string_gt_false in Hle. congruence.
Qed.

Ltac cost_cases :=
  repeat match goal with
         | |- context [?x =? ?y] => destruct (Z.eqb_spec x y)
         | H : context [?x =? ?y] |- _ => destruct (Z.eqb_spec x y)
         | |- context [?x <? ?y] => destruct (Z.ltb_spec x y)
         | H : context [?x <? ?y] |- _ => destruct (Z.ltb_spec x y)
         end.

Lemma simple_before_asym (a b : Filter) :
  simple_before a b = true -> simple_before b a = false.
Proof.
  unfold simple_before. cost_cases; try lia; try discriminate; auto.
  apply string_gt_asym.
Qed.

Lemma simple_before_trans (a b c : Filter) :
  simple_before a b = true -> simple_before b c = true ->
  simple_before a c = true.
Proof.
  unfold simple_before. cost_cases; try lia; try discriminate; auto.
  apply string_gt_trans.
Qed.

Lemma simple_before_negtrans (a b c : Filter) :
  simple_before a b = false -> simple_before b c = false ->
  simple_before a c = false.
Proof.
  unfold simple_before. cost_cases; try lia; try discriminate; auto.
  apply string_gt_negtrans.
Qed.

Lemma simple_filter_cost (NDEBUG : bool) (f : Filter) :
  simple_filter NDEBUG f = true ->
  isOperator f = false /\ filterCost NDEBUG f = Ok (cost f).
Proof.
  unfold simple_filter. intros H. apply andb_true_iff in H as [Hop Hnf].
  apply negb_true_iff in Hop. split; [exact Hop |].
  destruct f; simpl in *; try discriminate; try reflexivity;
    try (destruct global; reflexivity).
  rewrite orb_false_r in Hnf. rewrite Hnf. reflexivity.
Qed.

Lemma sort_less_simple_before (NDEBUG : bool) (a b : Filter) :
  simple_filter NDEBUG a = true -> simple_filter NDEBUG b = true ->
  sort_less NDEBUG a b = Ok (simple_before a b).
Proof.
  intros Ha Hb.
  apply simple_filter_cost in Ha as [Hoa Hca].
  apply simple_filter_cost in Hb as [Hob Hcb].
  unfold sort_less. rewrite Hca, Hcb, Hoa, Hob. simpl.
  pose proof (leaf_cost_bounds NDEBUG a _ Hoa Hca) as Ba.
  pose proof (leaf_cost_bounds NDEBUG b _ Hob Hcb) as Bb.
  unfold int_sub, simple_before. rewrite int_wrap_id
    by (unfold in_int_range, INT_MIN, INT_MAX; lia).
  cost_cases; simpl; try reflexivity; lia.
Qed.

(** X5. On a sequence of simple filters [sort] returns the filters by cost
    ascending, and within one cost by key descending. *)
Theorem sort_simple_filters_ascending (NDEBUG : bool) (fs : list Filter) :
  forallb (simple_filter NDEBUG) fs = true ->
  exists out, sort NDEBUG fs = Ok out /\ Permutation fs out /\
              ascending simple_before out.
Proof.
  intros Hsimple. rewrite forallb_forall in Hsimple.
  assert (Hcomp : forall a b, In a fs -> In b fs ->
                              sort_less NDEBUG a b = Ok (simple_before a b)).
  { intros a b Ha Hb. apply sort_less_simple_before; auto. }
  destruct (std_sort_perm (sort_less NDEBUG) fs) as [out [Hout Hperm]].
  { intros a b Ha Hb. rewrite Hcomp by assumption. eauto. }
  exists out. split; [exact Hout |]. split; [exact Hperm |].
  eapply (std_sort_sorted simple_before simple_before_asym simple_before_trans
            simple_before_negtrans (sort_less NDEBUG) fs out Hcomp Hout).
Qed.

Lemma sort_simple_filters_ascending_witness :
  exists out,
    sort false [Function 7; Existence "kind" true;
                Equality "geom" (Value_double 1) undefined;
                Range "zoom" 0 10 undefined; Range "height" 0 10 zoom] = Ok out /\
    ascending simple_before out.
Proof.
  destruct (sort_simple_filters_ascending false
              [Function 7; Existence "kind" true;
               Equality "geom" (Value_double 1) undefined;
               Range "zoom" 0 10 undefined; Range "height" 0 10 zoom] eq_refl)
    as (out & Hout & _ & Hasc).
  exists out. split; [exact Hout | exact Hasc].
Defined.

(* ================================================================= *)
(** * Further properties of the code *)

(** ** Evaluation: what it reads and how the combinators compose *)

Section LoopCongruence.
Variables ev1 ev2 : Filter -> bool.

Lemma any_operand_ext (ops : list Filter) :
  Forall (fun f => ev1 f = ev2 f) ops ->
  any_operand ev1 ops = any_operand ev2 ops.
Proof.
  induction 1 as [| x l Hx _ IH]; simpl; [reflexivity |].
  rewrite Hx, IH. reflexivity.
Qed.

Lemma all_operands_ext (ops : list Filter) :
  Forall (fun f => ev1 f = ev2 f) ops ->
  all_operands ev1 ops = all_operands ev2 ops.
Proof.
  induction 1 as [| x l Hx _ IH]; simpl; [reflexivity |].
  rewrite Hx, IH. reflexivity.
Qed.

Lemma no_operand_ext (ops : list Filter) :
  Forall (fun f => ev1 f = ev2 f) ops ->
  no_operand ev1 ops = no_operand ev2 ops.
Proof.
  induction 1 as [| x l Hx _ IH]; simpl; [reflexivity |].
  rewrite Hx, IH. reflexivity.
Qed.

End LoopCongruence.

(** X6. The result of an evaluation depends on the record and the context
    only through what the filter names: two property stores that agree on
    the keys the filter reads, and two contexts that agree on the global
    references it reads and on the external predicates it calls, give the
    same result. *)
Theorem eval_reads_only_named (props1 props2 : gmap string Value)
  (ctx1 ctx2 : StyleContext) (f : Filter) :
  (forall k, In k (keys_read f) -> props1 !! k = props2 !! k) ->
  (forall g, In g (globals_read f) -> getGlobal ctx1 g = getGlobal ctx2 g) ->
  (forall id, In id (functions_called f) -> evalFilter ctx1 id = evalFilter ctx2 id) ->
  eval props1 ctx1 f = eval props2 ctx2 f.
Proof.
  induction f as [| ops IH | ops IH | ops IH | k vs g | k v g | k lo hi g | k e | id]
    using Filter_tree_ind; intros Hk Hg Hf; simpl in *.
  - reflexivity.
  - apply all_operands_ext. rewrite List.Forall_forall in *. intros x Hx.
    apply IH; [exact Hx | | |]; intros y Hy;
      [apply Hk | apply Hg | apply Hf]; apply in_flat_map; eauto.
  - apply no_operand_ext. rewrite List.Forall_forall in *. intros x Hx.
    apply IH; [exact Hx | | |]; intros y Hy;
      [apply Hk | apply Hg | apply Hf]; apply in_flat_map; eauto.
  - apply any_operand_ext. rewrite List.Forall_forall in *. intros x Hx.
    apply IH; [exact Hx | | |]; intros y Hy;
      [apply Hk | apply Hg | apply Hf]; apply in_flat_map; eauto.
  - f_equal. unfold resolve, props_get.
    destruct (FilterGlobal_eqb g undefined);
      [rewrite (Hk k) | apply Hg]; simpl; auto.
  - f_equal. unfold resolve, props_get.
    destruct (FilterGlobal_eqb g undefined);
      [rewrite (Hk k) | apply Hg]; simpl; auto.
  - f_equal. unfold resolve, props_get.
    destruct (FilterGlobal_eqb g undefined);
      [rewrite (Hk k) | apply Hg]; simpl; auto.
  - unfold props_contains. rewrite (Hk k) by auto. reflexivity.
  - apply Hf. auto.
Qed.

Lemma eval_reads_only_named_witness :
  eval {[ "kind" := Value_string "park"; "name" := Value_string "a" ]}
       {| getGlobal := fun _ => Value_double 3; evalFilter := fun _ => true |}
       (OperatorAll [Equality "kind" (Value_string "park") undefined;
                     Range "height" 0 10 zoom])
  = eval {[ "kind" := Value_string "park"; "height" := Value_double 99 ]}
       {| getGlobal := fun _ => Value_double 3; evalFilter := fun _ => false |}
       (OperatorAll [Equality "kind" (Value_string "park") undefined;
                     Range "height" 0 10 zoom]).
Proof.
  apply eval_reads_only_named.
  - intros k Hk. simpl in Hk. destruct Hk as [<- | []]. reflexivity.
  - intros g Hg. reflexivity.
  - intros id Hid. simpl in Hid. destruct Hid.
Defined.

Section CombinatorLaws.
Variable ev : Filter -> bool.

Lemma no_operand_negb_any (ops : list Filter) :
  no_operand ev ops = negb (any_operand ev ops).
Proof.
  induction ops as [| x ops IH]; simpl; [reflexivity |].
  destruct (ev x); [reflexivity | exact IH].
Qed.

Lemma any_operand_app (l1 l2 : list Filter) :
  any_operand ev (l1 ++ l2) = any_operand ev l1 || any_operand ev l2.
Proof.
  induction l1 as [| x l1 IH]; simpl; [reflexivity |].
  destruct (ev x); [reflexivity | exact IH].
Qed.

Lemma all_operands_app (l1 l2 : list Filter) :
  all_operands ev (l1 ++ l2) = all_operands ev l1 && all_operands ev l2.
Proof.
  induction l1 as [| x l1 IH]; simpl; [reflexivity |].
  destruct (ev x); simpl; [exact IH | reflexivity].
Qed.

Lemma any_operand_perm (l1 l2 : list Filter) :
  Permutation l1 l2 -> any_operand ev l1 = any_operand ev l2.
Proof.
  intros Hp. apply eq_true_iff_eq. rewrite !any_operand_true.
  split; intros [f [Hin Hf]]; exists f; split; auto;
    eapply Permutation_in; try eassumption.
  apply Permutation_sym. exact Hp.
Qed.

Lemma all_operands_perm (l1 l2 : list Filter) :
  Permutation l1 l2 -> all_operands ev l1 = all_operands ev l2.
Proof.
  intros Hp. apply eq_true_iff_eq. rewrite !all_operands_true.
  split; intros H f Hin; apply H; eapply Permutation_in; try eassumption.
  apply Permutation_sym. exact Hp.
Qed.

End CombinatorLaws.

(** X7. The combinators obey the laws of disjunction and conjunction:
    [OperatorNone] is the negation of [OperatorAny] on the same operands;
    evaluating over a concatenation is the "or" (for [OperatorAny]) or the
    "and" (for [OperatorAll]) of the two parts; and an [OperatorAny] nested
    as operand of an [OperatorAny], or an [OperatorAll] in an
    [OperatorAll], can be flattened into its parent. *)
Theorem combinator_laws (props : gmap string Value) (ctx : StyleContext) :
  (forall ops, eval props ctx (OperatorNone ops)
               = negb (eval props ctx (OperatorAny ops))) /\
  (forall l1 l2, eval props ctx (OperatorAny (l1 ++ l2))
                 = eval props ctx (OperatorAny l1) || eval props ctx (OperatorAny l2)) /\
  (forall l1 l2, eval props ctx (OperatorAll (l1 ++ l2))
                 = eval props ctx (OperatorAll l1) && eval props ctx (OperatorAll l2)) /\
  (forall l rest, eval props ctx (OperatorAny (OperatorAny l :: rest))
                  = eval props ctx (OperatorAny (l ++ rest))) /\
  (forall l rest, eval props ctx (OperatorAll (OperatorAll l :: rest))
                  = eval props ctx (OperatorAll (l ++ rest))).
Proof.
  split_all; intros; simpl.
  - apply no_operand_negb_any.
  - apply any_operand_app.
  - apply all_operands_app.
  - rewrite any_operand_app.
    destruct (any_operand (eval props ctx) l); reflexivity.
  - rewrite all_operands_app.
    destruct (all_operands (eval props ctx) l); reflexivity.
Qed.

(** X8. An [EqualitySet] evaluates as the [OperatorAny] of the [Equality]
    filters on its values, with the same key and global reference. *)
Theorem equality_set_is_any_of_equalities (props : gmap string Value)
  (ctx : StyleContext) (k : string) (vs : list Value) (g : FilterGlobal) :
  eval props ctx (EqualitySet k vs g)
  = eval props ctx (OperatorAny (map (fun v => Equality k v g) vs)).
Proof.
  simpl. destruct (resolve props ctx k g) as [| num | str] eqn:Hx; simpl.
  - induction vs as [| v vs IH]; simpl; [reflexivity |].
    rewrite Hx. simpl. exact IH.
  - induction vs as [| v vs IH]; simpl; [reflexivity |].
    rewrite Hx. simpl. rewrite IH. reflexivity.
  - induction vs as [| v vs IH]; simpl; [reflexivity |].
    rewrite Hx. simpl. rewrite IH. reflexivity.
Qed.

(** ** Sorting keeps the meaning of a combinator *)

Section StdSortReturns.
Context {A : Type}.
Variable comp : A -> A -> result bool.

Lemma unguarded_linear_insert_returns (val : A) (rprefix r : list A) :
  unguarded_linear_insert comp val rprefix = Ok r ->
  Permutation (val :: rprefix) r.
Proof.
  revert r. induction rprefix as [| next before IH]; intros r; simpl.
  - discriminate.
  - destruct (comp val next) as [[|] | e]; simpl; try discriminate.
    + destruct (unguarded_linear_insert comp val before) as [r' | e] eqn:Hr';
        simpl; [| discriminate].
      intros H. injection H as <-.
      eapply Permutation_trans; [apply perm_swap |].
      apply perm_skip. apply IH. reflexivity.
    + intros H. injection H as <-. apply Permutation_refl.
Qed.

Lemma insertion_step_returns (prefix r : list A) (val : A) :
  insertion_step comp prefix val = Ok r -> Permutation (val :: prefix) r.
Proof.
  destruct prefix as [| first tl]; simpl.
  - intros H. injection H as <-. apply Permutation_refl.
  - destruct (comp val first) as [[|] | e]; simpl; try discriminate.
    + intros H. injection H as <-. apply Permutation_refl.
    + destruct (unguarded_linear_insert comp val (rev tl ++ [first]))
        as [r' | e] eqn:Hr'; simpl; [| discriminate].
      intros H. injection H as <-.
      apply unguarded_linear_insert_returns in Hr'.
      eapply Permutation_trans; [| apply Permutation_rev].
      eapply Permutation_trans; [| exact Hr'].
      apply perm_skip. apply (Permutation_rev (first :: tl)).
Qed.

Lemma insertion_sort_from_returns (rest prefix out : list A) :
  insertion_sort_from comp prefix rest = Ok out ->
  Permutation (prefix ++ rest) out.
Proof.
  revert prefix. induction rest as [| val rest IH]; intros prefix; simpl.
  - intros H. injection H as <-. rewrite app_nil_r. apply Permutation_refl.
  - destruct (insertion_step comp prefix val) as [r | e] eqn:Hr; simpl;
      [| discriminate].
    intros H. apply IH in H. apply insertion_step_returns in Hr.
    eapply Permutation_trans; [| exact H].
    eapply Permutation_trans; [apply Permutation_sym, Permutation_middle |].
    apply (Permutation_app_tail rest Hr).
Qed.

Lemma std_sort_returns (v out : list A) :
  std_sort comp v = Ok out -> Permutation v out.
Proof.
  destruct v as [| first rest]; simpl.
  - intros H. injection H as <-. apply Permutation_refl.
  - apply (insertion_sort_from_returns rest [first]).
Qed.

End StdSortReturns.

(** X9. Sorting the operands of a combinator does not change what the
    combinator evaluates to: whatever sequence [sort] returns for the
    operands, [OperatorAny], [OperatorAll] and [OperatorNone] over it give
    the result they give over the operands as written. *)
Theorem sort_preserves_eval (NDEBUG : bool) (props : gmap string Value)
  (ctx : StyleContext) (fs out : list Filter) :
  sort NDEBUG fs = Ok out ->
  eval props ctx (OperatorAny out) = eval props ctx (OperatorAny fs) /\
  eval props ctx (OperatorAll out) = eval props ctx (OperatorAll fs) /\
  eval props ctx (OperatorNone out) = eval props ctx (OperatorNone fs).
Proof.
  intros Hsort. apply std_sort_returns in Hsort. apply Permutation_sym in Hsort.
  simpl. split_all.
  - apply any_operand_perm. exact Hsort.
  - apply all_operands_perm. exact Hsort.
  - rewrite !no_operand_negb_any. f_equal. apply any_operand_perm. exact Hsort.
Qed.

Lemma sort_preserves_eval_witness :
  eval {[ "kind" := Value_string "park" ]}
       {| getGlobal := fun _ => Value_double 3; evalFilter := fun _ => false |}
       (OperatorAny [Equality "kind" (Value_string "park") undefined;
                     Existence "name" true; Function 7])
  = eval {[ "kind" := Value_string "park" ]}
       {| getGlobal := fun _ => Value_double 3; evalFilter := fun _ => false |}
       (OperatorAny [Function 7; Existence "name" true;
                     Equality "kind" (Value_string "park") undefined]).
Proof.
  apply (sort_preserves_eval false _ _
           [Function 7; Existence "name" true;
            Equality "kind" (Value_string "park") undefined]
           [Equality "kind" (Value_string "park") undefined;
            Existence "name" true; Function 7]).
  reflexivity.
Defined.

(** ** Ranges and numeric equality on binary64 values *)

Ltac sf_order :=
  unfold SFltb, SFleb, SFeqb, SFcompare;
  repeat match goal with x : spec_float |- _ => destruct x end;
  try discriminate;
  repeat match goal with s : bool |- _ => destruct s end;
  try discriminate; try reflexivity;
  repeat match goal with
         | |- context [Pos.compare_cont Eq ?a ?b] =>
             change (Pos.compare_cont Eq a b) with (Pos.compare a b)
         end;
  repeat match goal with
         | |- context [Z.compare ?a ?b] => destruct (Z.compare_spec a b)
         end;
  try discriminate; try reflexivity; try lia;
  repeat match goal with
         | |- context [Pos.compare ?a ?b] => destruct (Pos.compare_spec a b)
         end;
  simpl; try discriminate; try reflexivity; try lia.

Lemma SFltb_not_ge (a b : spec_float) :
  SFltb a b = true -> SFleb b a = true -> False.
Proof. sf_order. Qed.

Lemma SFleb_ltb_trans (a b c : spec_float) :
  SFleb a b = true -> SFltb b c = true -> SFltb a c = true.
Proof.
  destruct (SFltb a c) eqn:Hac; [reflexivity |]. revert Hac. sf_order.
Qed.

Lemma SFltb_leb_trans (a b c : spec_float) :
  SFltb a b = true -> SFleb b c = true -> SFltb a c = true.
Proof.
  destruct (SFltb a c) eqn:Hac; [reflexivity |]. revert Hac. sf_order.
Qed.

Lemma SFleb_trans (a b c : spec_float) :
  SFleb a b = true -> SFleb b c = true -> SFleb a c = true.
Proof.
  destruct (SFleb a c) eqn:Hac; [reflexivity |]. revert Hac. sf_order.
Qed.

Lemma SFltb_or_ge (a b c : spec_float) :
  SFleb a b = true -> SFleb c c = true ->
  SFltb b c = true \/ SFleb c b = true.
Proof.
  destruct (SFltb b c) eqn:Hbc; [auto |]. intros H1 H2. right.
  revert Hbc H1 H2. sf_order.
Qed.

Lemma SFleb_refl_r (a b : spec_float) : SFleb a b = true -> SFleb b b = true.
Proof. sf_order. Qed.

Lemma SFeqb_irrefl_nan (x : spec_float) : SFeqb x x = false -> x = S754_nan.
Proof. sf_order. Qed.

Lemma match_range_split (lo mid hi : double) (x : Value) :
  PrimFloat.leb lo mid = true -> PrimFloat.leb mid hi = true ->
  match_range lo hi x = match_range lo mid x || match_range mid hi x.
Proof.
  intros Hlm Hmh. destruct x as [| num | str]; simpl; try reflexivity.
  rewrite !leb_spec, !ltb_spec in *.
  apply eq_true_iff_eq.
  rewrite orb_true_iff, !andb_true_iff. split.
  - intros [H1 H2].
    destruct (SFltb_or_ge _ _ (Prim2SF mid) H1 (SFleb_refl_r _ _ Hlm)) as [H | H];
      [left | right]; auto.
  - intros [[H1 H2] | [H1 H2]]; split; auto.
    + eapply SFltb_leb_trans; eassumption.
    + eapply SFleb_trans; eassumption.
Qed.

Lemma match_range_disjoint (lo mid hi : double) (x : Value) :
  match_range lo mid x && match_range mid hi x = false.
Proof.
  destruct x as [| num | str]; simpl; try reflexivity.
  apply not_true_is_false. rewrite !andb_true_iff, !leb_spec, !ltb_spec.
  intros [[_ H1] [H2 _]]. exact (SFltb_not_ge _ _ H1 H2).
Qed.

(** X10. Half-open ranges tile: for [lo <= mid <= hi], a [Range] from
    [lo] to [hi] matches exactly when the range from [lo] to [mid] or the
    range from [mid] to [hi] on the same key matches, and the two parts
    never match together. *)
Theorem adjacent_ranges_tile (props : gmap string Value) (ctx : StyleContext)
  (k : string) (lo mid hi : double) (g : FilterGlobal) :
  PrimFloat.leb lo mid = true -> PrimFloat.leb mid hi = true ->
  eval props ctx (Range k lo hi g)
  = eval props ctx (OperatorAny [Range k lo mid g; Range k mid hi g]) /\
  eval props ctx (OperatorAll [Range k lo mid g; Range k mid hi g]) = false.
Proof.
  intros Hlm Hmh. simpl. split.
  - rewrite (match_range_split lo mid hi _ Hlm Hmh).
    destruct (match_range lo mid _), (match_range mid hi _); reflexivity.
  - pose proof (match_range_disjoint lo mid hi (resolve props ctx k g)) as H.
    destruct (match_range lo mid _), (match_range mid hi _);
      simpl in *; congruence.
Qed.

Lemma adjacent_ranges_tile_witness :
  eval {[ "height" := Value_double 12 ]}
       {| getGlobal := fun _ => Value_none; evalFilter := fun _ => false |}
       (Range "height" 0 20 undefined)
  = eval {[ "height" := Value_double 12 ]}
       {| getGlobal := fun _ => Value_none; evalFilter := fun _ => false |}
       (OperatorAny [Range "height" 0 10 undefined; Range "height" 10 20 undefined]).
Proof.
  apply (adjacent_ranges_tile _ _ "height" 0 10 20 undefined); reflexivity.
Defined.

(** X11. A numeric [Equality] filter matches a record that holds the very
    number it asks for, infinities included, unless that number is a NaN:
    a NaN matches nothing, not even itself. *)
Theorem equality_matches_same_number (props : gmap string Value)
  (ctx : StyleContext) (k : string) (g : FilterGlobal) (a : double) :
  resolve props ctx k g = Value_double a ->
  eval props ctx (Equality k (Value_double a) g) = negb (PrimFloat.is_nan a).
Proof.
  intros Hres. simpl. rewrite Hres. simpl. unfold PrimFloat.is_nan.
  destruct (PrimFloat.eqb a a) eqn:Heq; [reflexivity |]. simpl.
  rewrite FloatAxioms.eqb_spec in Heq. apply SFeqb_irrefl_nan in Heq.
  unfold fabs. rewrite leb_spec, abs_spec, sub_spec, Heq. reflexivity.
Qed.

Lemma equality_matches_same_number_witness :
  eval {[ "height" := Value_double infinity ]}
       {| getGlobal := fun _ => Value_none; evalFilter := fun _ => false |}
       (Equality "height" (Value_double infinity) undefined) = true.
Proof.
  apply (equality_matches_same_number _ _ "height" undefined infinity).
  reflexivity.
Defined.

(** ** Sorting: input already in order, repeated sorting *)

Lemma StronglySorted_app_inv {A : Type} (R : A -> A -> Prop) (l1 l2 : list A) :
  StronglySorted R (l1 ++ l2) ->
  StronglySorted R l1 /\ StronglySorted R l2 /\
  (forall x y, In x l1 -> In y l2 -> R x y).
Proof.
  induction l1 as [| a l1 IH]; simpl; intros H.
  - split_all; [constructor | exact H | tauto].
  - apply StronglySorted_inv in H as [Hs Hall].
    apply IH in Hs as (H1 & H2 & H12).
    rewrite List.Forall_forall in Hall. split_all.
    + constructor; [exact H1 |]. apply List.Forall_forall.
      intros x Hx. apply Hall, in_or_app. auto.
    + exact H2.
    + intros x y [<- | Hx] Hy; [apply Hall, in_or_app; auto | auto].
Qed.

Lemma StronglySorted_impl_in {A : Type} (R R' : A -> A -> Prop) (l : list A) :
  (forall x y, In x l -> In y l -> R x y -> R' x y) ->
  StronglySorted R l -> StronglySorted R' l.
Proof.
  induction l as [| a l IH]; intros Himp Hs; [constructor |].
  apply StronglySorted_inv in Hs as [Hs Hall]. constructor.
  - apply IH; [| exact Hs]. intros x y Hx Hy. apply Himp; right; assumption.
  - rewrite List.Forall_forall in *. intros x Hx.
    apply Himp; [left; reflexivity | right; exact Hx | apply Hall; exact Hx].
Qed.

Section StdSortInOrder.
Context {A : Type}.
Variable comp : A -> A -> result bool.

Lemma insertion_step_in_order (prefix : list A) (val : A) :
  prefix <> [] ->
  (forall x, In x prefix -> comp val x = Ok false) ->
  insertion_step comp prefix val = Ok (prefix ++ [val]).
Proof.
  intros Hne Hle. destruct prefix as [| first tl]; [congruence |]. simpl.
  rewrite (Hle first (or_introl eq_refl)). simpl.
  destruct (rev tl ++ [first]) as [| last before] eqn:Hrev.
  - destruct (rev tl); discriminate.
  - simpl. rewrite (Hle last).
    + change (Ok (rev (val :: last :: before)) = Ok ((first :: tl) ++ [val])).
      rewrite <- Hrev.
      replace (val :: rev tl ++ [first]) with (rev ((first :: tl) ++ [val]))
        by (rewrite rev_app_distr; reflexivity).
      rewrite rev_involutive. reflexivity.
    + change (rev tl ++ [first]) with (rev (first :: tl)) in Hrev.
      apply in_rev. rewrite Hrev. left. reflexivity.
Qed.

Lemma insertion_sort_from_in_order (rest prefix : list A) :
  prefix <> [] ->
  StronglySorted (fun x y => comp y x = Ok false) (prefix ++ rest) ->
  insertion_sort_from comp prefix rest = Ok (prefix ++ rest).
Proof.
  revert prefix. induction rest as [| val rest IH]; intros prefix Hne Hs; simpl.
  - rewrite app_nil_r. reflexivity.
  - rewrite insertion_step_in_order; [simpl | exact Hne |].
    + rewrite IH.
      * rewrite <- app_assoc. reflexivity.
      * destruct prefix; discriminate.
      * rewrite <- app_assoc. exact Hs.
    + intros x Hx. apply StronglySorted_app_inv in Hs as (_ & _ & H12).
      apply H12; [exact Hx | left; reflexivity].
Qed.

Lemma std_sort_in_order (v : list A) :
  StronglySorted (fun x y => comp y x = Ok false) v -> std_sort comp v = Ok v.
Proof.
  destruct v as [| first rest]; simpl; [reflexivity |].
  intros Hs. apply (insertion_sort_from_in_order rest [first]);
    [discriminate | exact Hs].
Qed.

End StdSortInOrder.

(** X12. On up to sixteen siblings, the range on which [std::sort] is
    the insertion sort above, [sort] returns its input unchanged when no
    sibling compares less than a sibling placed before it.  The comparator
    is consulted only on such pairs, so a sequence of fewer than two filters
    is returned as it is even when its filter cannot be costed. *)
Theorem sort_keeps_ordered_input (NDEBUG : bool) (fs : list Filter) :
  (length fs <= 16)%nat ->
  in_order (sort_less NDEBUG) fs -> sort NDEBUG fs = Ok fs.
Proof.
  intros _ Hs. unfold sort. apply std_sort_in_order. exact Hs.
Qed.

Lemma sort_keeps_ordered_input_witness :
  sort false [Filter_none] = Ok [Filter_none] /\
  sort false [range_from_zero; range_from_half; two_operands]
  = Ok [range_from_zero; range_from_half; two_operands].
Proof.
  split; apply sort_keeps_ordered_input; simpl; try lia; unfold in_order;
    repeat (constructor; try reflexivity).
Defined.

(** X13. Sorting simple filters a second time changes nothing: on up to
    sixteen simple filters with defined costs [sort] returns a sequence
    that [sort] maps to itself. *)
Theorem sort_simple_filters_idempotent (NDEBUG : bool) (fs : list Filter) :
  (length fs <= 16)%nat ->
  forallb (simple_filter NDEBUG) fs = true ->
  exists out, sort NDEBUG fs = Ok out /\ sort NDEBUG out = Ok out.
Proof.
  intros _ Hsimple. rewrite forallb_forall in Hsimple.
  assert (Hcomp : forall a b, In a fs -> In b fs ->
                              sort_less NDEBUG a b = Ok (simple_before a b)).
  { intros a b Ha Hb. apply sort_less_simple_before; auto. }
  destruct (std_sort_perm (sort_less NDEBUG) fs) as [out [Hout Hperm]].
  { intros a b Ha Hb. rewrite Hcomp by assumption. eauto. }
  exists out. split; [exact Hout |].
  pose proof (std_sort_sorted simple_before simple_before_asym simple_before_trans
                simple_before_negtrans (sort_less NDEBUG) fs out Hcomp Hout) as Hasc.
  unfold sort. apply std_sort_in_order.
  eapply StronglySorted_impl_in; [| exact Hasc].
  intros x y Hx Hy Hxy. simpl in *.
  rewrite Hcomp; [rewrite Hxy; reflexivity | |];
    eapply Permutation_in; try (apply Permutation_sym; exact Hperm); assumption.
Qed.

Lemma sort_simple_filters_idempotent_witness :
  exists out,
    sort false [Function 7; Existence "kind" true;
                Equality "geom" (Value_double 1) undefined;
                Range "zoom" 0 10 undefined] = Ok out /\
    sort false out = Ok out.
Proof.
  apply (sort_simple_filters_idempotent false
           [Function 7; Existence "kind" true;
            Equality "geom" (Value_double 1) undefined;
            Range "zoom" 0 10 undefined]).
  - simpl. lia.
  - reflexivity.
Defined.

(** ** The comparator: cost comes first, and no filter precedes itself *)

Lemma double_self_difference (x : double) (d : Z) :
  double_to_int (PrimFloat.sub x x) = Ok d -> d = 0.
Proof.
  unfold double_to_int, double_trunc. rewrite sub_spec.
  destruct (Prim2SF x) as [s | s | | s m e]; simpl.
  - destruct s; simpl; intros H; injection H as <-; reflexivity.
  - destruct s; discriminate.
  - discriminate.
  - unfold SF64sub, SFsub. rewrite Z.sub_diag. simpl.
    intros H; injection H as <-; reflexivity.
Qed.

Lemma string_gt_irrefl (s : string) : string_gt s s = false.
Proof. apply string_gt_false. reflexivity. Qed.

Lemma not_both_simple (a b : Filter) :
  isOperator a || isOperator b = true ->
  negb (isOperator a) && negb (isOperator b) = false.
Proof.
  intros H. apply orb_true_iff in H.
  destruct H as [-> | ->]; simpl; [reflexivity | apply andb_false_r].
Qed.

(** X14. The comparator of [sort] never puts a filter before itself:
    whenever it returns on a pair made of one filter twice, it returns
    false. *)
Theorem sort_less_irreflexive (NDEBUG : bool) (a : Filter) (r : bool) :
  sort_less NDEBUG a a = Ok r -> r = false.
Proof.
  unfold sort_less. destruct (filterCost NDEBUG a) as [ma | e]; simpl;
    [| discriminate].
  destruct (isOperator a) eqn:Hop; simpl.
  - rewrite Z.eqb_refl. simpl. unfold compareSetFilter.
    rewrite Nat.eqb_refl. simpl.
    destruct (operands a) as [| x oa]; simpl; [discriminate |].
    destruct x; simpl; try (intros H; injection H as <-; reflexivity).
    rewrite String.eqb_refl. simpl.
    destruct (isinf max && isinf max).
    + destruct (double_to_int (PrimFloat.sub min min)) as [d | e] eqn:Hd; simpl;
        [| discriminate].
      apply double_self_difference in Hd. subst d.
      intros H; injection H as <-; reflexivity.
    + intros H; injection H as <-; reflexivity.
  - unfold int_sub. rewrite Z.sub_diag. simpl.
    rewrite string_gt_irrefl. intros H; injection H as <-; reflexivity.
Qed.

Lemma sort_less_irreflexive_witness :
  sort_less false range_from_half range_from_half = Ok false.
Proof.
  destruct (sort_less false range_from_half range_from_half) as [r | e] eqn:H.
  - f_equal. exact (sort_less_irreflexive false range_from_half r H).
  - vm_compute in H. discriminate H.
Defined.

Lemma sort_less_cheaper (NDEBUG : bool) (a b : Filter) (ma mb : Z) :
  filterCost NDEBUG a = Ok ma -> filterCost NDEBUG b = Ok mb -> ma < mb ->
  sort_less NDEBUG a b = Ok true /\ sort_less NDEBUG b a = Ok false.
Proof.
  intros Ha Hb Hlt. unfold sort_less. rewrite Ha, Hb. simpl.
  rewrite (andb_comm (negb (isOperator b))).
  destruct (negb (isOperator a) && negb (isOperator b)) eqn:Hsimple.
  - apply andb_true_iff in Hsimple as [Hoa Hob].
    apply negb_true_iff in Hoa, Hob.
    pose proof (leaf_cost_bounds NDEBUG a ma Hoa Ha).
    pose proof (leaf_cost_bounds NDEBUG b mb Hob Hb).
    unfold int_sub.
    rewrite !int_wrap_id by (unfold in_int_range, INT_MIN, INT_MAX; lia).
    split; cost_cases; simpl; try reflexivity; lia.
  - split; cost_cases; simpl; try reflexivity; lia.
Qed.

(** X15. Cost is the first key of the comparator: a filter whose cost is
    strictly smaller is put before the other and never after it, and a
    filter that the comparator puts first never costs more than the
    other. *)
Theorem sort_less_follows_cost (NDEBUG : bool) (a b : Filter) (ma mb : Z) :
  filterCost NDEBUG a = Ok ma -> filterCost NDEBUG b = Ok mb ->
  (ma < mb -> sort_less NDEBUG a b = Ok true /\ sort_less NDEBUG b a = Ok false) /\
  (sort_less NDEBUG a b = Ok true -> ma <= mb).
Proof.
  intros Ha Hb. split; [apply sort_less_cheaper; assumption |].
  intros Hab. destruct (Z.lt_ge_cases mb ma) as [Hlt | Hge]; [| lia].
  destruct (sort_less_cheaper NDEBUG b a mb ma Hb Ha Hlt) as [_ H].
  congruence.
Qed.

Lemma sort_less_follows_cost_witness :
  sort_less false range_from_zero (Function 7) = Ok true /\
  sort_less false (Function 7) range_from_zero = Ok false.
Proof.
  apply (proj1 (sort_less_follows_cost false range_from_zero (Function 7) 110 1000
                  eq_refl eq_refl)).
  reflexivity.
Defined.

Lemma filterCost_cost (NDEBUG : bool) (f : Filter) :
  NDEBUG = true \/ none_free f = true -> cost f <= INT_MAX ->
  filterCost NDEBUG f = Ok (cost f).
Proof.
  induction f as [| ops IH | ops IH | ops IH | | | | |] using Filter_tree_ind;
    intros Hnf Hmax; simpl in *;
    try reflexivity; try (destruct g; reflexivity).
  - destruct Hnf as [-> | Hnf]; [reflexivity | discriminate].
  - rewrite cost_operands_total in *. apply operator_cost_refines; assumption.
  - rewrite cost_operands_total in *. apply operator_cost_refines; assumption.
  - rewrite cost_operands_total in *. apply operator_cost_refines; assumption.
Qed.

Lemma operator_cost_ge_100 (f : Filter) : isOperator f = true -> 100 <= cost f.
Proof.
  destruct f; simpl; try discriminate; intros _;
    rewrite cost_operands_total;
    match goal with |- context [sum_list (map cost ?l)] =>
      assert (0 <= sum_list (map cost l))
        by (induction l as [| z l IHl]; simpl;
            [lia | pose proof (cost_nonneg z); lia])
    end; lia.
Qed.

(** X16. The penalty of 100 keeps composite filters behind simple ones:
    every [Existence], [EqualitySet], [Equality] and [Range] is put before
    every operator whose cost is defined and fits an [int], and never after
    it. *)
Theorem keyed_filter_before_operator (NDEBUG : bool) (a b : Filter) :
  keyed_filter a = true ->
  isOperator b = true ->
  NDEBUG = true \/ none_free b = true -> cost b <= INT_MAX ->
  sort_less NDEBUG a b = Ok true /\ sort_less NDEBUG b a = Ok false.
Proof.
  intros Hkeyed Hob Hnf Hmax.
  pose proof (filterCost_cost NDEBUG b Hnf Hmax) as Hcb.
  pose proof (operator_cost_ge_100 b Hob) as H100.
  assert (Hca : exists ca, filterCost NDEBUG a = Ok ca /\ ca <= 20).
  { destruct a; simpl in *; try discriminate;
      try (eexists; split; [reflexivity | destruct (FilterGlobal_eqb _ _); lia]);
      try (eexists; split; [reflexivity | lia]). }
  destruct Hca as [ca [Hca Hle]].
  apply (sort_less_cheaper NDEBUG a b ca (cost b)); auto. lia.
Qed.

Lemma keyed_filter_before_operator_witness :
  sort_less false (Existence "kind" true) (OperatorAny []) = Ok true /\
  sort_less false (OperatorAny []) (Existence "kind" true) = Ok false.
Proof.
  apply keyed_filter_before_operator.
  - reflexivity.
  - reflexivity.
  - right. reflexivity.
  - vm_compute. discriminate.
Defined.

(** ** The tie-break on lower bounds loses differences below one *)

Lemma digits2_pos_bound (m : positive) : Z.pos m < 2 ^ Z.pos (digits2_pos m).
Proof.
  induction m as [m IH | m IH |]; cbn [digits2_pos].
  - rewrite Pos2Z.inj_succ, Z.pow_succ_r by lia. lia.
  - rewrite Pos2Z.inj_succ, Z.pow_succ_r by lia. lia.
  - reflexivity.
Qed.

Lemma valid_mantissa_bound (s : bool) (m : positive) (e : Z) :
  valid_binary (S754_finite s m e) = true -> Z.pos m < 2 ^ 53.
Proof.
  unfold SpecFloat.valid_binary, bounded, canonical_mantissa, fexp, emin.
  intros H. apply andb_true_iff in H as [H _]. apply Z.eqb_eq in H.
  pose proof (digits2_pos_bound m) as Hm.
  assert (Hd : Z.pos (digits2_pos m) <= 53).
  { unfold prec, emax in H. lia. }
  eapply Z.lt_le_trans; [exact Hm |]. apply Z.pow_le_mono_r; lia.
Qed.

Lemma one_spec : Prim2SF 1 = S754_finite false 4503599627370496 (-52).
Proof. reflexivity. Qed.

Lemma shiftl_small (m : positive) (e : Z) :
  e < 0 -> Z.pos m < 2 ^ (- e) -> Z.shiftl (Z.pos m) e = 0.
Proof.
  intros He Hm. rewrite Z.shiftl_div_pow2 by lia. apply Z.div_small. lia.
Qed.

Lemma double_to_int_below_one (x : double) :
  PrimFloat.ltb (PrimFloat.abs x) 1 = true -> double_to_int x = Ok 0.
Proof.
  rewrite ltb_spec, abs_spec, one_spec.
  unfold double_to_int, double_trunc.
  pose proof (Prim2SF_valid x) as Hv.
  destruct (Prim2SF x) as [s | s | | s m e].
  - intros _. reflexivity.
  - discriminate.
  - discriminate.
  - apply valid_mantissa_bound in Hv. unfold SFabs, SFltb, SFcompare.
    intros Hlt.
    assert (Hz : Z.shiftl (Z.pos m) e = 0).
    { destruct (Z.compare_spec e (-52)) as [-> | He | He].
      - destruct (PosDef.Pos.compare_cont Eq m 4503599627370496) eqn:Hc;
          try discriminate Hlt.
        apply shiftl_small; [reflexivity |].
        exact (Pos2Z.pos_lt_pos m 4503599627370496 Hc).
      - clear Hlt. apply shiftl_small; [lia |].
        eapply Z.lt_le_trans; [exact Hv |].
        apply Z.pow_le_mono_r; clear Hv; lia.
      - discriminate Hlt. }
    rewrite Hz. destruct s; reflexivity.
Qed.

Lemma compareSetFilter_ranges (a b : Filter) (k : string)
  (mina maxa minb maxb : double) (ga gb : FilterGlobal)
  (resta restb : list Filter) :
  operands a = Range k mina maxa ga :: resta ->
  operands b = Range k minb maxb gb :: restb ->
  length resta = length restb ->
  isinf maxa = true -> isinf maxb = true ->
  compareSetFilter a b = double_to_int (PrimFloat.sub minb mina).
Proof.
  intros Hoa Hob Hlen Hia Hib.
  unfold compareSetFilter. rewrite Hoa, Hob. simpl.
  rewrite Hlen, Nat.eqb_refl. simpl.
  rewrite String.eqb_refl, Hia, Hib. reflexivity.
Qed.

(** X17. The tie-break on the lower bounds cannot tell apart bounds that
    differ by less than one: for two cost-tied filters with equally many
    operands whose first operands are ranges on one key with infinite upper
    bounds, [compareSetFilter] returns 0 and the comparator of [sort]
    returns false whenever the difference of the lower bounds is below one
    in absolute value. *)
Theorem range_tie_below_one_unordered (NDEBUG : bool) (a b : Filter)
  (k : string) (mina maxa minb maxb : double) (ga gb : FilterGlobal)
  (resta restb : list Filter) (c : Z) :
  operands a = Range k mina maxa ga :: resta ->
  operands b = Range k minb maxb gb :: restb ->
  length resta = length restb ->
  isinf maxa = true -> isinf maxb = true ->
  filterCost NDEBUG a = Ok c -> filterCost NDEBUG b = Ok c ->
  PrimFloat.ltb (PrimFloat.abs (PrimFloat.sub minb mina)) 1 = true ->
  compareSetFilter a b = Ok 0 /\ sort_less NDEBUG a b = Ok false.
Proof.
  intros Hoa Hob Hlen Hia Hib Hca Hcb Hsmall.
  assert (Hcmp : compareSetFilter a b = Ok 0).
  { rewrite (compareSetFilter_ranges a b k mina maxa minb maxb ga gb resta restb)
      by assumption.
    apply double_to_int_below_one. exact Hsmall. }
  split; [exact Hcmp |].
  unfold sort_less. rewrite Hca, Hcb. simpl.
  assert (Hop : isOperator a = true).
  { destruct a; simpl in Hoa; try discriminate; reflexivity. }
  rewrite Hop, Z.eqb_refl. simpl. rewrite Hcmp. reflexivity.
Qed.

Lemma range_tie_below_one_unordered_witness :
  compareSetFilter range_from_half range_from_zero = Ok 0 /\
  sort_less false range_from_half range_from_zero = Ok false.
Proof.
  apply (range_tie_below_one_unordered false range_from_half range_from_zero
           "height" 0.5 infinity 0 infinity undefined undefined [] [] 110);
    reflexivity.
Defined.

(** ** The debug dump *)

Lemma print_operands_defined (ops : list Filter) :
  Forall (fun f => forall i,
            (has_empty_set f = false -> exists log, print f i = Ok log) /\
            (has_empty_set f = true -> print f i = Err IndexOutOfRange)) ops ->
  forall i,
    (existsb has_empty_set ops = false ->
     exists log, print_operands print i ops = Ok log) /\
    (existsb has_empty_set ops = true ->
     print_operands print i ops = Err IndexOutOfRange).
Proof.
  induction 1 as [| f ops Hf _ IH]; intros i; simpl.
  - split; [eauto | discriminate].
  - destruct (Hf (int_add i 2)) as [Hok Hbad]. destruct (IH i) as [IHok IHbad].
    destruct (has_empty_set f); simpl.
    + split; [discriminate |]. intros _. rewrite Hbad; reflexivity.
    + destruct (Hok eq_refl) as [log ->]. simpl. split.
      * intros Hrest. destruct (IHok Hrest) as [logs ->]. simpl. eauto.
      * intros Hrest. rewrite (IHbad Hrest). reflexivity.
Qed.

(** X18. The debug dump reads the first value of every [EqualitySet]
    without checking that there is one: [print] runs out of bounds exactly
    when some [EqualitySet] of the tree has no value, and logs its messages
    otherwise, whatever the indentation. *)
Theorem print_needs_set_values (f : Filter) (_indent : Z) :
  (has_empty_set f = false -> exists log, print f _indent = Ok log) /\
  (has_empty_set f = true -> print f _indent = Err IndexOutOfRange).
Proof.
  revert _indent.
  induction f as [| ops IH | ops IH | ops IH | k vs g | k v g | k lo hi g | k e | id]
    using Filter_tree_ind; intros i; simpl;
    try (split; [eauto | discriminate]).
  - destruct (print_operands_defined ops IH i) as [Hok Hbad]. split; intros H.
    + destruct (Hok H) as [log ->]. simpl. eauto.
    + rewrite (Hbad H). reflexivity.
  - destruct (print_operands_defined ops IH i) as [Hok Hbad]. split; intros H.
    + destruct (Hok H) as [log ->]. simpl. eauto.
    + rewrite (Hbad H). reflexivity.
  - destruct (print_operands_defined ops IH i) as [Hok Hbad]. split; intros H.
    + destruct (Hok H) as [log ->]. simpl. eauto.
    + rewrite (Hbad H). reflexivity.
  - destruct vs as [| v vs]; simpl.
    + split; [discriminate | reflexivity].
    + split; [eauto | discriminate].
Qed.

Lemma print_needs_set_values_witness :
  print (OperatorAll [Existence "kind" true; EqualitySet "kind" [] undefined]) 0
  = Err IndexOutOfRange.
Proof.
  apply (proj2 (print_needs_set_values
                  (OperatorAll [Existence "kind" true;
                                EqualitySet "kind" [] undefined]) 0)).
  reflexivity.
Defined.

(** ** Introspection *)

(** X20. [key], [operands] and [isOperator] never disagree about the
    kind of a filter: only an operator can have operands, only a filter on
    a named value can have a non-empty key, and no filter is both. *)
Theorem introspection_consistent (f : Filter) :
  (operands f <> [] -> isOperator f = true) /\
  (key f <> EmptyString -> keyed_filter f = true) /\
  (isOperator f = true -> key f = EmptyString /\ keyed_filter f = false) /\
  (keyed_filter f = true -> operands f = [] /\ isOperator f = false).
Proof.
  destruct f; simpl; split_all; try reflexivity; try discriminate;
    try congruence; intros; split; reflexivity.
Qed.

(** ** Assertions do not change the order *)

Lemma sum_costs_ndebug (ops : list Filter) :
  Forall (fun f => none_free f = true -> filterCost true f = filterCost false f) ops ->
  forallb none_free ops = true ->
  forall sum, sum_costs (filterCost true) ops sum = sum_costs (filterCost false) ops sum.
Proof.
  induction 1 as [| f ops Hf _ IH]; intros Hall sum; simpl in *; [reflexivity |].
  apply andb_true_iff in Hall as [Hnf Hrest].
  rewrite (Hf Hnf). destruct (filterCost false f); simpl; [| reflexivity].
  apply IH, Hrest.
Qed.

Lemma filterCost_ndebug (f : Filter) :
  none_free f = true -> filterCost true f = filterCost false f.
Proof.
  induction f as [| ops IH | ops IH | ops IH | | | | |] using Filter_tree_ind;
    simpl; intros Hnf; try reflexivity; try discriminate;
    apply sum_costs_ndebug; assumption.
Qed.

Lemma sort_less_ndebug (a b : Filter) :
  none_free a = true -> none_free b = true ->
  sort_less true a b = sort_less false a b.
Proof.
  intros Ha Hb. unfold sort_less.
  rewrite (filterCost_ndebug a Ha), (filterCost_ndebug b Hb). reflexivity.
Qed.

Section StdSortExt.
Context {A : Type}.
Variables comp1 comp2 : A -> A -> result bool.

Lemma unguarded_linear_insert_ext (val : A) (rprefix : list A) :
  (forall p, In p rprefix -> comp1 val p = comp2 val p) ->
  unguarded_linear_insert comp1 val rprefix
  = unguarded_linear_insert comp2 val rprefix.
Proof.
  induction rprefix as [| next before IH]; intros Hext; simpl; [reflexivity |].
  rewrite (Hext next (or_introl eq_refl)).
  rewrite IH by (intros p Hp; apply Hext; right; exact Hp). reflexivity.
Qed.

Lemma insertion_step_ext (prefix : list A) (val : A) :
  (forall p, In p prefix -> comp1 val p = comp2 val p) ->
  insertion_step comp1 prefix val = insertion_step comp2 prefix val.
Proof.
  intros Hext. destruct prefix as [| first tl]; simpl; [reflexivity |].
  rewrite (Hext first (or_introl eq_refl)).
  rewrite (unguarded_linear_insert_ext val (rev tl ++ [first])); [reflexivity |].
  intros p Hp. apply Hext. change (In p (rev (first :: tl))) in Hp.
  apply in_rev in Hp. exact Hp.
Qed.

Lemma insertion_sort_from_ext (rest prefix : list A) :
  (forall a b, In a (prefix ++ rest) -> In b (prefix ++ rest) ->
               comp1 a b = comp2 a b) ->
  insertion_sort_from comp1 prefix rest = insertion_sort_from comp2 prefix rest.
Proof.
  revert prefix. induction rest as [| val rest IH]; intros prefix Hext; simpl;
    [reflexivity |].
  rewrite (insertion_step_ext prefix val)
    by (intros p Hp; apply Hext; apply in_or_app; [right; left | left]; auto).
  destruct (insertion_step comp2 prefix val) as [r | e] eqn:Hr; simpl;
    [| reflexivity].
  apply IH. apply insertion_step_returns in Hr.
  assert (Hin : forall x, In x (r ++ rest) -> In x (prefix ++ val :: rest)).
  { intros x Hx. apply in_app_or in Hx as [Hx | Hx]; apply in_or_app.
    - apply (Permutation_in x (Permutation_sym Hr)) in Hx.
      destruct Hx as [<- | Hx]; [right; left; reflexivity | left; exact Hx].
    - right; right; exact Hx. }
  intros a b Ha Hb. apply Hext; apply Hin; assumption.
Qed.

Lemma std_sort_ext (v : list A) :
  (forall a b, In a v -> In b v -> comp1 a b = comp2 a b) ->
  std_sort comp1 v = std_sort comp2 v.
Proof.
  destruct v as [| first rest]; simpl; [reflexivity |].
  apply (insertion_sort_from_ext rest [first]).
Qed.

End StdSortExt.

(** X21. Building with or without assertions does not change the order:
    on siblings that contain no [none_type] filter, [sort] gives the same
    outcome whether [assert] is compiled in or out. *)
Theorem sort_same_with_and_without_assertions (fs : list Filter) :
  forallb none_free fs = true -> sort true fs = sort false fs.
Proof.
  intros Hnf. rewrite forallb_forall in Hnf. unfold sort.
  apply std_sort_ext. intros a b Ha Hb. apply sort_less_ndebug; auto.
Qed.

Lemma sort_same_with_and_without_assertions_witness :
  sort true [Function 7; two_operands; range_from_half]
  = sort false [Function 7; two_operands; range_from_half].
Proof.
  apply sort_same_with_and_without_assertions. reflexivity.
Defined.

(* ================================================================= *)
(** * The sorter on the comparisons it makes *)

Section StdSortEarlier.
Context {A : Type}.
Variable comp : A -> A -> result bool.

Lemma insertion_sort_from_earlier (rest prefix : list A) :
  (forall x a, In x prefix -> In a rest -> exists r, comp a x = Ok r) ->
  StronglySorted (fun earlier later => exists r, comp later earlier = Ok r) rest ->
  exists out, insertion_sort_from comp prefix rest = Ok out /\
              Permutation (prefix ++ rest) out.
Proof.
  revert prefix. induction rest as [| val rest IH]; intros prefix Hpre Hs; simpl.
  - rewrite app_nil_r. eexists; split; [reflexivity | apply Permutation_refl].
  - apply StronglySorted_inv in Hs as [Hs Hall].
    rewrite List.Forall_forall in Hall.
    destruct (insertion_step_perm comp prefix val) as [r [Hr Hperm]].
    { intros p Hp. apply Hpre; [exact Hp | left; reflexivity]. }
    rewrite Hr. simpl.
    destruct (IH r) as [out [Hout Hp]].
    + intros x a Hx Ha.
      apply (Permutation_in x (Permutation_sym Hperm)) in Hx.
      apply in_app_or in Hx as [Hx | [<- | []]].
      * apply Hpre; [exact Hx | right; exact Ha].
      * apply Hall. exact Ha.
    + exact Hs.
    + exists out. split; [exact Hout |].
      eapply Permutation_trans; [| exact Hp].
      change (val :: rest) with ([val] ++ rest). rewrite app_assoc.
      apply Permutation_app_tail. exact Hperm.
Qed.

Lemma std_sort_earlier (v : list A) :
  StronglySorted (fun earlier later => exists r, comp later earlier = Ok r) v ->
  exists out, std_sort comp v = Ok out /\ Permutation v out.
Proof.
  destruct v as [| first rest]; simpl; intros Hs.
  - eexists; split; [reflexivity | apply Permutation_refl].
  - apply StronglySorted_inv in Hs as [Hs Hall].
    rewrite List.Forall_forall in Hall.
    apply (insertion_sort_from_earlier rest [first]); [| exact Hs].
    intros x a [<- | []] Ha. apply Hall. exact Ha.
Qed.

Lemma unguarded_linear_insert_fails (val : A) (rprefix : list A) (e : error) :
  unguarded_linear_insert comp val rprefix = Err e ->
  (exists p, In p rprefix /\ comp val p = Err e) \/
  (forall p, In p rprefix -> comp val p = Ok true).
Proof.
  induction rprefix as [| next before IH]; simpl.
  - intros _. right. intros p [].
  - destruct (comp val next) as [[|] | e'] eqn:Hc; simpl.
    + destruct (unguarded_linear_insert comp val before) as [r | e''] eqn:Hr;
        simpl; [discriminate |].
      intros H. injection H as ->.
      destruct (IH eq_refl) as [[p [Hp Hpe]] | Hall].
      * left. exists p. auto.
      * right. intros p [<- | Hp]; auto.
    + discriminate.
    + intros H. injection H as ->. left. exists next. auto.
Qed.

Lemma insertion_step_fails (prefix : list A) (val : A) (e : error) :
  insertion_step comp prefix val = Err e ->
  exists p, In p prefix /\ comp val p = Err e.
Proof.
  destruct prefix as [| first tl]; simpl; [discriminate |].
  destruct (comp val first) as [[|] | e'] eqn:Hc; simpl.
  - discriminate.
  - destruct (unguarded_linear_insert comp val (rev tl ++ [first]))
      as [r | e''] eqn:Hr; simpl; [discriminate |].
    intros H. injection H as ->.
    apply unguarded_linear_insert_fails in Hr as [[p [Hp Hpe]] | Hall].
    + exists p. split; [| exact Hpe].
      change (In p (rev (first :: tl))) in Hp. apply in_rev in Hp. exact Hp.
    + rewrite (Hall first) in Hc by (apply in_or_app; right; left; reflexivity).
      discriminate.
  - intros H. injection H as ->. exists first. auto.
Qed.

Lemma insertion_sort_from_fails (rest prefix : list A) (e : error) :
  insertion_sort_from comp prefix rest = Err e ->
  exists front a back b,
    rest = front ++ a :: back /\ (In b prefix \/ In b front) /\ comp a b = Err e.
Proof.
  revert prefix. induction rest as [| val rest IH]; intros prefix; simpl.
  - discriminate.
  - destruct (insertion_step comp prefix val) as [r | e'] eqn:Hr; simpl.
    + intros H. apply IH in H as (front & a & back & b & Heq & Hb & Hab).
      exists (val :: front), a, back, b. split_all.
      * rewrite Heq. reflexivity.
      * apply insertion_step_returns in Hr.
        destruct Hb as [Hb | Hb]; [| right; right; exact Hb].
        apply (Permutation_in b (Permutation_sym Hr)) in Hb.
        destruct Hb as [<- | Hb]; [right; left; reflexivity | left; exact Hb].
      * exact Hab.
    + intros H. injection H as ->.
      apply insertion_step_fails in Hr as [p [Hp Hpe]].
      exists [], val, rest, p. split_all; auto.
Qed.

Lemma std_sort_fails (v : list A) (e : error) :
  std_sort comp v = Err e ->
  exists front a back b,
    v = front ++ a :: back /\ In b front /\ comp a b = Err e.
Proof.
  destruct v as [| first rest]; simpl; [discriminate |].
  intros H. apply insertion_sort_from_fails in H
    as (front & a & back & b & Heq & Hb & Hab).
  exists (first :: front), a, back, b. split_all.
  - rewrite Heq. reflexivity.
  - destruct Hb as [[<- | []] | Hb]; [left; reflexivity | right; exact Hb].
  - exact Hab.
Qed.

End StdSortEarlier.

(** C8, amended. On up to sixteen siblings, the range on which
    [std::sort] is the insertion sort above: whenever the comparator returns
    on every sibling against every sibling placed before it in the input,
    [sort] returns; the result is a sequence of its own (a fresh cell of the
    store), a permutation of the input; the caller's sequence and every
    other sequence of the store are as before; and every node of the result
    is a node of the input with its nested operand sequences untouched, so
    only the one level of siblings is reordered.  When [sort] does not
    return, a call of the comparator on a sibling against an earlier sibling
    has failed, with the failure [sort] ends in. *)
Theorem sort_permutes_siblings (NDEBUG : bool)
  (h : gmap positive (list Filter)) (_filters : positive) (fs : list Filter) :
  h !! _filters = Some fs ->
  (length fs <= 16)%nat ->
  (returns_on_earlier (sort_less NDEBUG) fs ->
   exists (out : list Filter) (h' : gmap positive (list Filter)) (filters : positive),
     sort NDEBUG fs = Ok out /\
     sort_call NDEBUG h _filters = Ok (h', filters) /\
     filters <> _filters /\ h !! filters = None /\
     h' !! filters = Some out /\
     h' !! _filters = Some fs /\
     (forall r, r <> filters -> h' !! r = h !! r) /\
     Permutation fs out /\
     (forall f, In f out -> In f fs) /\
     Permutation (map operands fs) (map operands out)) /\
  (forall e, sort NDEBUG fs = Err e ->
     sort_call NDEBUG h _filters = Err e /\
     exists front a back b,
       fs = front ++ a :: back /\ In b front /\ sort_less NDEBUG a b = Err e).
Proof.
  intros Hin _. split.
  - intros Hdef.
    destruct (std_sort_earlier (sort_less NDEBUG) fs Hdef) as [out [Hout Hperm]].
    assert (Hfresh : h !! fresh (dom h) = None).
    { apply not_elem_of_dom. apply is_fresh. }
    assert (Hne : fresh (dom h) <> _filters).
    { intros Heq. rewrite Heq in Hfresh. congruence. }
    exists out, (<[fresh (dom h) := out]> (<[fresh (dom h) := fs]> h)), (fresh (dom h)).
    split_all.
    + exact Hout.
    + unfold sort_call. rewrite Hin. simpl. rewrite Hout. reflexivity.
    + exact Hne.
    + exact Hfresh.
    + apply lookup_insert_eq.
    + rewrite !lookup_insert_ne by exact Hne. exact Hin.
    + intros r Hr.
      rewrite !lookup_insert_ne by (intros Heq; apply Hr; symmetry; exact Heq).
      reflexivity.
    + exact Hperm.
    + intros f Hf.
      eapply Permutation_in; [apply Permutation_sym; exact Hperm | exact Hf].
    + apply Permutation_map. exact Hperm.
  - intros e He. split.
    + unfold sort_call. rewrite Hin. simpl. unfold sort in He. rewrite He.
      reflexivity.
    + apply std_sort_fails. exact He.
Qed.

Lemma sort_permutes_siblings_witness :
  exists out, sort false [Function 7; two_operands; OperatorAny [];
                          Existence "kind" true] = Ok out /\
              Permutation [Function 7; two_operands; OperatorAny [];
                           Existence "kind" true] out.
Proof.
  destruct (sort_permutes_siblings false
              {[ 1%positive := [Function 7; two_operands; OperatorAny [];
                                Existence "kind" true] ]}
              1%positive
              [Function 7; two_operands; OperatorAny []; Existence "kind" true])
    as [Hok _].
  - apply lookup_singleton_eq.
  - simpl. lia.
  - destruct Hok as (out & h' & q & Hsort & _ & _ & _ & _ & _ & _ & Hperm & _).
    + unfold returns_on_earlier.
      repeat (constructor; try (eexists; reflexivity)).
    + exists out. split; [exact Hsort | exact Hperm].
Defined.

(* ================================================================= *)
(** * The tie-break on lower bounds that differ by one or more *)

Lemma digits2_pos_lower (m : positive) : 2 ^ (Z.pos (digits2_pos m) - 1) <= Z.pos m.
Proof.
  induction m as [m IH | m IH |]; cbn [digits2_pos].
  - rewrite Pos2Z.inj_succ.
    replace (Z.succ (Z.pos (digits2_pos m)) - 1) with (Z.succ (Z.pos (digits2_pos m) - 1)) by lia.
    rewrite Z.pow_succ_r by lia. lia.
  - rewrite Pos2Z.inj_succ.
    replace (Z.succ (Z.pos (digits2_pos m)) - 1) with (Z.succ (Z.pos (digits2_pos m) - 1)) by lia.
    rewrite Z.pow_succ_r by lia. lia.
  - reflexivity.
Qed.

Lemma valid_normal_mantissa (s : bool) (m : positive) (e : Z) :
  valid_binary (S754_finite s m e) = true -> -1074 < e ->
  2 ^ 52 <= Z.pos m < 2 ^ 53.
Proof.
  unfold SpecFloat.valid_binary, bounded, canonical_mantissa, fexp, emin.
  intros H He. apply andb_true_iff in H as [H _]. apply Z.eqb_eq in H.
  pose proof (digits2_pos_bound m) as Hup.
  pose proof (digits2_pos_lower m) as Hlo.
  assert (Hd : Z.pos (digits2_pos m) = 53).
  { unfold prec, emax in H. lia. }
  rewrite Hd in Hup, Hlo. exact (conj Hlo Hup).
Qed.

Lemma minus_one_spec : Prim2SF (-1) = S754_finite true 4503599627370496 (-52).
Proof. reflexivity. Qed.

Lemma int_min_spec :
  Prim2SF (-2147483648) = S754_finite true 4503599627370496 (-21).
Proof. reflexivity. Qed.

Lemma shiftl_window (m : positive) (e : Z) :
  2 ^ 52 <= Z.pos m < 2 ^ 53 -> -52 <= e <= -21 ->
  (e = -21 -> Z.pos m <= 2 ^ 52) ->
  1 <= Z.shiftl (Z.pos m) e <= 2 ^ 31.
Proof.
  intros [Hlo Hup] [He1 He2] Hedge.
  rewrite Z.shiftl_div_pow2 by lia.
  assert (Hp : 0 < 2 ^ (- e)) by (apply Z.pow_pos_nonneg; lia).
  split.
  - apply Z.div_le_lower_bound; [exact Hp |].
    rewrite Z.mul_1_r. eapply Z.le_trans; [| exact Hlo].
    apply Z.pow_le_mono_r; lia.
  - apply Z.div_le_upper_bound; [exact Hp |].
    destruct (Z.eq_dec e (-21)) as [-> | Hne].
    + specialize (Hedge eq_refl). change (- -21) with 21.
      rewrite <- Z.pow_add_r by lia. exact Hedge.
    + apply Z.lt_le_incl. eapply Z.lt_le_trans; [exact Hup |].
      rewrite <- Z.pow_add_r by lia. apply Z.pow_le_mono_r; lia.
Qed.

Lemma double_to_int_whole_negative (x : double) :
  PrimFloat.leb x (-1) = true -> PrimFloat.leb (-2147483648) x = true ->
  exists d, double_to_int x = Ok d /\ d < 0.
Proof.
  rewrite !leb_spec, minus_one_spec, int_min_spec.
  unfold double_to_int, double_trunc.
  pose proof (Prim2SF_valid x) as Hv.
  destruct (Prim2SF x) as [s | s | | s m e].
  - discriminate.
  - destruct s; discriminate.
  - discriminate.
  - destruct s; [| discriminate].
    unfold SFleb, SFcompare. intros H1 H2.
    assert (He : -52 <= e <= -21).
    { destruct (Z.compare_spec e (-52)); destruct (Z.compare_spec (-21) e);
        try discriminate; lia. }
    assert (Hm : 2 ^ 52 <= Z.pos m < 2 ^ 53).
    { apply (valid_normal_mantissa true m e Hv). lia. }
    assert (Hedge : e = -21 -> Z.pos m <= 2 ^ 52).
    { intros ->. clear H1 Hm He Hv. revert H2. simpl.
      destruct (PosDef.Pos.compare_cont Eq 4503599627370496 m) eqn:Hc;
        try discriminate; intros _.
      - apply Pos.compare_eq in Hc. rewrite <- Hc. reflexivity.
      - apply Pos.compare_gt_iff in Hc.
        apply Z.lt_le_incl. exact (Pos2Z.pos_lt_pos _ _ Hc). }
    clear H1 H2 Hv.
    pose proof (shiftl_window m e Hm He Hedge) as [Hlo Hup].
    exists (- Z.shiftl (Z.pos m) e). split; [| lia].
    assert (Hr : (INT_MIN <=? - Z.shiftl (Z.pos m) e)
                 && (- Z.shiftl (Z.pos m) e <=? INT_MAX) = true).
    { apply andb_true_iff. unfold INT_MIN, INT_MAX.
      split; apply Z.leb_le; lia. }
    rewrite Hr. reflexivity.
Qed.

(** X3. The tie-break on the lower bounds does order bounds that are a
    whole unit apart: for two cost-tied filters with equally many operands
    whose first operands are ranges on one key with infinite upper bounds,
    the comparator of [sort] puts [a] first whenever the difference
    [rb.min - ra.min], as the code computes it, is at most -1 and not below
    the smallest [int]. *)
Theorem range_tie_break_orders_whole_difference (NDEBUG : bool) (a b : Filter)
  (k : string) (mina maxa minb maxb : double) (ga gb : FilterGlobal)
  (resta restb : list Filter) (c : Z) :
  operands a = Range k mina maxa ga :: resta ->
  operands b = Range k minb maxb gb :: restb ->
  length resta = length restb ->
  isinf maxa = true -> isinf maxb = true ->
  filterCost NDEBUG a = Ok c -> filterCost NDEBUG b = Ok c ->
  PrimFloat.leb (PrimFloat.sub minb mina) (-1) = true ->
  PrimFloat.leb (-2147483648) (PrimFloat.sub minb mina) = true ->
  (exists d, compareSetFilter a b = Ok d /\ d < 0) /\
  sort_less NDEBUG a b = Ok true.
Proof.
  intros Hoa Hob Hlen Hia Hib Hca Hcb Hle Hge.
  destruct (double_to_int_whole_negative _ Hle Hge) as [d [Hd Hneg]].
  assert (Hcmp : compareSetFilter a b = Ok d).
  { rewrite (compareSetFilter_ranges a b k mina maxa minb maxb ga gb resta restb)
      by assumption.
    exact Hd. }
  split; [exists d; auto |].
  unfold sort_less. rewrite Hca, Hcb. simpl.
  assert (Hop : isOperator a = true).
  { destruct a; simpl in Hoa; try discriminate; reflexivity. }
  rewrite Hop, Z.eqb_refl. simpl. rewrite Hcmp. simpl.
  f_equal. apply Z.ltb_lt. exact Hneg.
Qed.

Lemma range_tie_break_orders_whole_difference_witness :
  sort_less false (OperatorAll [Range "height" 1.5 infinity undefined])
                  range_from_half = Ok true.
Proof.
  apply (proj2 (range_tie_break_orders_whole_difference false
                  (OperatorAll [Range "height" 1.5 infinity undefined])
                  range_from_half "height" 1.5 infinity 0.5 infinity
                  undefined undefined [] [] 110
                  eq_refl eq_refl eq_refl eq_refl eq_refl eq_refl eq_refl
                  eq_refl eq_refl)).
Defined.

(* ================================================================= *)
(** * The indentation of the debug dump *)

Lemma print_value_widths (label : string) (i : Z) (g : FilterGlobal)
  (k : string) (v : Value) :
  in_int_range i ->
  map msg_width (print_value label i g k v) = map (width_at i) (value_lines v).
Proof.
  intros Hi. unfold width_at.
  destruct v; simpl; try reflexivity;
    rewrite Z.add_0_r, int_wrap_id by exact Hi; reflexivity.
Qed.

Lemma width_at_next (i : Z) (level : nat) :
  width_at (int_add i 2) level = width_at i (S level).
Proof.
  unfold width_at, int_add. rewrite int_wrap_add_l. do 2 f_equal. lia.
Qed.

Lemma print_operands_widths (ops : list Filter) :
  Forall (fun f => forall i log,
            in_int_range i -> print f i = Ok log ->
            map msg_width log = map (width_at i) (nesting_levels f)) ops ->
  forall i logs,
    print_operands print i ops = Ok logs ->
    map msg_width logs
    = map (width_at i) (map S (flat_map nesting_levels ops)).
Proof.
  induction 1 as [| f ops Hf _ IH]; intros i logs; simpl.
  - intros H. injection H as <-. reflexivity.
  - destruct (print f (int_add i 2)) as [log |] eqn:Hlog; simpl; [| discriminate].
    destruct (print_operands print i ops) as [rest |] eqn:Hrest; simpl;
      [| discriminate].
    intros H. injection H as <-.
    rewrite !map_app. f_equal.
    + rewrite (Hf (int_add i 2) log (int_wrap_in_range _) Hlog).
      rewrite map_map. apply map_ext. intros level. apply width_at_next.
    + apply IH. exact Hrest.
Qed.

(** X19. The dump indents by two per nesting level: the widths that the
    messages of [print] pass for their leading blank field are, message by
    message in the order logged, the indentation of the call plus twice the
    nesting level of the node described, in [int] arithmetic. *)
Theorem print_widths_follow_nesting (f : Filter) (_indent : Z) (log : list log_msg) :
  in_int_range _indent -> print f _indent = Ok log ->
  map msg_width log = map (width_at _indent) (nesting_levels f).
Proof.
  revert _indent log.
  induction f as [| ops IH | ops IH | ops IH | k vs g | k v g | k lo hi g | k e | id]
    using Filter_tree_ind; intros i log Hi; simpl.
  - intros H. injection H as <-. reflexivity.
  - destruct (print_operands print i ops) as [logs |] eqn:Hlogs; simpl;
      [| discriminate].
    intros H. injection H as <-. simpl. f_equal.
    + unfold width_at. simpl. rewrite Z.add_0_r, int_wrap_id by exact Hi. reflexivity.
    + apply (print_operands_widths ops IH i logs Hlogs).
  - destruct (print_operands print i ops) as [logs |] eqn:Hlogs; simpl;
      [| discriminate].
    intros H. injection H as <-. simpl. f_equal.
    + unfold width_at. simpl. rewrite Z.add_0_r, int_wrap_id by exact Hi. reflexivity.
    + apply (print_operands_widths ops IH i logs Hlogs).
  - destruct (print_operands print i ops) as [logs |] eqn:Hlogs; simpl;
      [| discriminate].
    intros H. injection H as <-. simpl. f_equal.
    + unfold width_at. simpl. rewrite Z.add_0_r, int_wrap_id by exact Hi. reflexivity.
    + apply (print_operands_widths ops IH i logs Hlogs).
  - destruct vs as [| v vs]; simpl; [discriminate |].
    intros H. injection H as <-. apply print_value_widths. exact Hi.
  - intros H. injection H as <-. apply print_value_widths. exact Hi.
  - intros H. injection H as <-. unfold width_at. simpl.
    rewrite Z.add_0_r, int_wrap_id by exact Hi. reflexivity.
  - intros H. injection H as <-. unfold width_at. simpl.
    rewrite Z.add_0_r, int_wrap_id by exact Hi. reflexivity.
  - intros H. injection H as <-. unfold width_at. simpl.
    rewrite Z.add_0_r, int_wrap_id by exact Hi. reflexivity.
Qed.

Lemma print_widths_follow_nesting_witness :
  exists log,
    print (OperatorAny [Existence "kind" true;
                        OperatorAll [Function 7; Filter_none]; Function 8]) 4
    = Ok log /\
    map msg_width log = [Some 4; Some 6; Some 6; Some 8; Some 6].
Proof.
  eexists. split; [reflexivity |].
  apply (print_widths_follow_nesting
           (OperatorAny [Existence "kind" true;
                         OperatorAll [Function 7; Filter_none]; Function 8]) 4).
  - vm_compute. split; discriminate.
  - reflexivity.
Defined.
